(** * Image to MIDI converter: the colour-to-note core of [main.py]

    A shallow embedding of the Mapper ([hsv_to_midi_params]), the
    similarity predicate ([colors_are_close]) and the Sequencer
    ([create_midi_from_colors]) of [src/main.py], and of the pixel loop of
    the Sampler ([extract_hsv_data]) and the program ([main]) around them.
    The image library, [colorsys.rgb_to_hsv] and the two file dialogs are
    not part of the program: the decoded image, the conversion function and
    the dialogs' answers are inputs.

    Numbers.  The Python code computes on floats; here a number is an exact
    rational ([Q]).  Every beat value the Sequencer builds is a multiple of
    0.5, which binary floating point represents exactly, and the Mapper's
    results pass through integer clamps, so the statements below do not
    lean on rounding.  Equality of rationals is [Qeq] ([==]).

    Effects.  [create_midi_from_colors] returns nothing: it prints, drives a
    [MIDIFile] object and writes a file.  The embedding returns the ordered
    trace of those actions; the NoteEvents of the specification are the
    [addNote] calls of the trace, in emission order. *)

From Stdlib Require Import ZArith QArith Qabs Qround Qminmax.
From Stdlib Require Import List Sorted Bool String Lia Lqa.
Import ListNotations.

Local Open Scope Q_scope.

(** ** Python built-ins used by the code *)

Module Py.

(** [int(x)] on a number: truncation toward zero. *)
Definition int (x : Q) : Z := Z.quot (Qnum x) (Z.pos (Qden x)).

(** [a > b] and [a <= b] as the booleans Python computes. *)
Definition gt (a b : Q) : bool := negb (Qle_bool a b).
Definition le (a b : Q) : bool := Qle_bool a b.

(** [abs(x)]. *)
Definition abs (x : Q) : Q := Qabs x.

End Py.

(** ** Data *)

(** An [(h, s, v)] tuple. *)
Definition HSV : Type := (Q * Q * Q)%type.

(** An element of [color_data]: the tuple [(x, y, h, s, v)]. *)
Definition ColorSample : Type := (Z * Z * Q * Q * Q)%type.

Definition sample_hsv (c : ColorSample) : HSV :=
  let '(_, _, h, s, v) := c in (h, s, v).


(** ** Mapper *)

Definition hsv_to_midi_params (h s v : Q) : Z * Z :=
  let base_pitch := (h / 360) * 12 in
  let octave_shift := (v / 100) * 7 in
  let pitch := Py.int (21 + (octave_shift * 12) + base_pitch) in
  let pitch := Z.max 21 (Z.min 108 pitch) in
  let velocity := Py.int (20 + (s / 100) * 107) in
  let velocity := Z.max 20 (Z.min 127 velocity) in
  (pitch, velocity).

(** ** Similarity predicate *)

Definition colors_are_close (hsv1 hsv2 : HSV)
    (threshold_h threshold_s threshold_v : Q) : bool :=
  let '(h1, s1, v1) := hsv1 in
  let '(h2, s2, v2) := hsv2 in
  let hue_diff := Py.abs (h1 - h2) in
  let hue_diff := if Py.gt hue_diff 180 then 360 - hue_diff else hue_diff in
  Py.le hue_diff threshold_h
  && Py.le (Py.abs (s1 - s2)) threshold_s
  && Py.le (Py.abs (v1 - v2)) threshold_v.

(** The call the Sequencer makes: the three thresholds at their default 15. *)
Definition colors_are_close_default (hsv1 hsv2 : HSV) : bool :=
  colors_are_close hsv1 hsv2 15 15 15.

(** ** Actions of [create_midi_from_colors] *)

(** Console lines, by kind (the text formatting is not modelled). *)
Inductive Message : Type :=
| NoColorData                      (* "No color data to convert!" *)
| Converting                       (* "Converting colors to MIDI..." *)
| TotalPixels (n : nat)            (* "Total pixels to process: n" *)
| Processed (i n : nat)            (* "Processed i/n pixels..." *)
| Saved (path : string)            (* "MIDI file saved: path" *)
| Duration (beats : Q)             (* "Duration: ... seconds (beats beats)" *)
| ErrorSaving.                     (* "Error saving MIDI file: ..." on stderr *)

(** One [midi.addNote(track, channel, pitch, time, duration, volume)] call.
    [current_velocity] is [None] until a note starts, so the volume the
    call receives is kept as the optional value the variable holds. *)
Record NoteEvent : Type := mkNote {
  track : Z;
  channel : Z;
  pitch : Z;
  startTime : Q;
  duration : Q;
  velocity : option Z
}.

Inductive Action : Type :=
| Print (m : Message)
| NewMIDIFile (numTracks : Z)
| AddTrackName (trk : Z) (time : Q) (name : string)
| AddTempo (trk : Z) (time : Q) (bpm : Z)
| AddNote (n : NoteEvent)
| WriteFile (path : string)
| Exit (code : Z).

(** The NoteEvents of a trace, in emission order. *)
Fixpoint notes_of (tr : list Action) : list NoteEvent :=
  match tr with
  | [] => []
  | AddNote n :: tr' => n :: notes_of tr'
  | _ :: tr' => notes_of tr'
  end.

(** Does the action touch the MIDI writer (the [MIDIFile] object)? *)
Definition is_midi_action (a : Action) : bool :=
  match a with
  | NewMIDIFile _ | AddTrackName _ _ _ | AddTempo _ _ _
  | AddNote _ | WriteFile _ => true
  | Print _ | Exit _ => false
  end.

(** ** Sequencer *)

(** Eighth note duration in beats. *)
Definition eighth_note : Q := 1 # 2.

(** The local variables the loop carries. *)
Record SeqState : Type := mkState {
  current_time : Q;
  prev_hsv : option HSV;
  note_start_time : Q;
  current_pitch : option Z;
  current_velocity : option Z;
  accumulated_duration : Q
}.

(** The values before the loop (lines 144-149). *)
Definition init_state : SeqState :=
  {| current_time := 0;
     prev_hsv := None;
     note_start_time := 0;
     current_pitch := None;
     current_velocity := None;
     accumulated_duration := 0 |}.

(** [if current_pitch is not None: midi.addNote(...)], with track and
    channel 0. *)
Definition write_note (st : SeqState) : list Action :=
  match current_pitch st with
  | Some p =>
      [AddNote (mkNote 0 0 p (note_start_time st)
                       (accumulated_duration st) (current_velocity st))]
  | None => []
  end.

(** [prev_hsv and colors_are_close((h, s, v), prev_hsv)]: a non-empty tuple
    is truthy, so the left operand only tests for [None]. *)
Definition should_extend (hsv : HSV) (prev : option HSV) : bool :=
  match prev with
  | Some p => colors_are_close_default hsv p
  | None => false
  end.

(** The progress indicator of iteration [i]. *)
Definition progress (total i : nat) : list Action :=
  if Nat.eqb (Nat.modulo (i + 1) 100) 0
  then [Print (Processed (i + 1) total)]
  else [].

(** The [if] branch: extend the current note (line 160). *)
Definition extend_note (st : SeqState) : SeqState :=
  {| current_time := current_time st;
     prev_hsv := prev_hsv st;
     note_start_time := note_start_time st;
     current_pitch := current_pitch st;
     current_velocity := current_velocity st;
     accumulated_duration := accumulated_duration st + eighth_note |}.

(** The [else] branch after the write: start a new note (lines 168-171). *)
Definition start_note (pitch velocity : Z) (st : SeqState) : SeqState :=
  {| current_time := current_time st;
     prev_hsv := prev_hsv st;
     note_start_time := current_time st;
     current_pitch := Some pitch;
     current_velocity := Some velocity;
     accumulated_duration := eighth_note |}.

(** Lines 173-174: remember the sample and advance the clock. *)
Definition advance (hsv : HSV) (st : SeqState) : SeqState :=
  {| current_time := current_time st + eighth_note;
     prev_hsv := Some hsv;
     note_start_time := note_start_time st;
     current_pitch := current_pitch st;
     current_velocity := current_velocity st;
     accumulated_duration := accumulated_duration st |}.

(** One iteration of the [for] loop (lines 154-178): the actions it
    performs and the variables afterwards. *)
Definition loop_body (total i : nat) (c : ColorSample) (st : SeqState)
    : list Action * SeqState :=
  let '(x, y, h, s, v) := c in
  let '(pitch, velocity) := hsv_to_midi_params h s v in
  if should_extend (h, s, v) (prev_hsv st)
  then (progress total i, advance (h, s, v) (extend_note st))
  else (write_note st ++ progress total i,
        advance (h, s, v) (start_note pitch velocity st)).

(** The [for i, ... in enumerate(color_data)] loop from index [i] on. *)
Fixpoint loop (total i : nat) (cs : list ColorSample) (st : SeqState)
    : list Action * SeqState :=
  match cs with
  | [] => ([], st)
  | c :: cs' =>
      let '(out1, st1) := loop_body total i c st in
      let '(out2, st2) := loop total (S i) cs' st1 in
      (out1 ++ out2, st2)
  end.

(** [create_midi_from_colors(color_data, output_path, bpm)].  [open_ok]
    says whether opening and writing [output_path] succeeds. *)
Definition create_midi_from_colors (color_data : list ColorSample)
    (output_path : string) (bpm : Z) (open_ok : bool) : list Action :=
  match color_data with
  | [] => [Print NoColorData]
  | _ :: _ =>
      let total := List.length color_data in
      let '(out, st) := loop total 0 color_data init_state in
      [NewMIDIFile 1; AddTrackName 0 0 "Image Colors"; AddTempo 0 0 bpm;
       Print Converting; Print (TotalPixels total)]
      ++ out
      ++ write_note st
      ++ (if open_ok
          then [WriteFile output_path; Print (Saved output_path);
                Print (Duration (current_time st))]
          else [Print ErrorSaving; Exit 1])
  end.

(** The NoteEvents the Sequencer emits for a sample sequence. *)
Definition emitted (color_data : list ColorSample) (output_path : string)
    (bpm : Z) (open_ok : bool) : list NoteEvent :=
  notes_of (create_midi_from_colors color_data output_path bpm open_ok).

(** The NoteEvents of the loop run from index [i] in state [st], followed
    by the final write (lines 154-183). *)
Definition run_notes (total i : nat) (cs : list ColorSample) (st : SeqState)
    : list NoteEvent :=
  let '(out, st') := loop total i cs st in
  notes_of out ++ notes_of (write_note st').


(** The spec's merging scenario. *)
Definition merging_samples : list ColorSample :=
  [(0%Z, 0%Z, 10, 50, 50); (0%Z, 1%Z, 12, 52, 51); (0%Z, 2%Z, 200, 50, 50)].


(** ** The specification's wording, for comparison with the code *)

Module Spec.

(** Truncation of a number to an integer: drop the fractional part. *)
Definition truncate (x : Q) : Z :=
  if Qlt_le_dec x 0 then Qceiling x else Qfloor x.

(** Clamping of [x] to the range [[lo, hi]]. *)
Definition clamp (lo hi x : Z) : Z :=
  if (x <? lo)%Z then lo else if (hi <? x)%Z then hi else x.

(** [pitch = 21 + octaveShift*12 + basePitch], truncated, clamped. *)
Definition pitch_of (hue value : Q) : Z :=
  clamp 21 108 (truncate (21 + (value / 100 * 7) * 12 + (hue / 360 * 12))).

(** [velocity = 20 + saturation/100 * 107], truncated, clamped. *)
Definition velocity_of (saturation : Q) : Z :=
  clamp 20 127 (truncate (20 + saturation / 100 * 107)).

(** [hueDiff = |h1-h2|; if hueDiff > 180 then hueDiff = 360 - hueDiff]. *)
Definition hueDiff (h1 h2 : Q) : Q :=
  if Qlt_le_dec 180 (Qabs (h1 - h2))
  then 360 - Qabs (h1 - h2)
  else Qabs (h1 - h2).


(** Sum of the durations of a list of NoteEvents. *)
Fixpoint total_duration (ns : list NoteEvent) : Q :=
  match ns with
  | [] => 0
  | n :: ns' => duration n + total_duration ns'
  end.

(** [startTime[i] + duration[i] == startTime[i+1]] along the list. *)
Fixpoint contiguous (ns : list NoteEvent) : Prop :=
  match ns with
  | [] => True
  | n1 :: ns' =>
      match ns' with
      | [] => True
      | n2 :: _ => startTime n1 + duration n1 == startTime n2
      end /\ contiguous ns'
  end.

(** A whole number [k >= 1] of time-unit-steps. *)
Definition whole_steps (d : Q) : Prop :=
  exists k : positive, d == inject_Z (Z.pos k) * eighth_note.


End Spec.

(** ** States of the loop with a note in progress *)

(** After the first iteration the variables always describe a note in
    progress: pitch, velocity and previous sample are set, the note ends at
    the clock, and it lasts a whole number of steps. *)
Record pending (st : SeqState) : Prop := {
  pend_pitch : exists p, current_pitch st = Some p;
  pend_velocity : exists w, current_velocity st = Some w;
  pend_prev : exists hsv, prev_hsv st = Some hsv;
  pend_clock :
    note_start_time st + accumulated_duration st == current_time st;
  pend_steps : Spec.whole_steps (accumulated_duration st)
}.

(** The note that the next write would emit. *)
Definition note_in_progress (st : SeqState) : list NoteEvent :=
  notes_of (write_note st).

(** ** Sampler *)

(** The image as the pixel loop sees it, after [Image.open],
    [convert('RGBA')] and [resize]: [img.size] and the pixel access object
    [pixels[x, y]], which yields [(r, g, b, a)]. *)
Record Image : Type := mkImage {
  img_width : nat;
  img_height : nat;
  img_pixels : nat -> nat -> Z * Z * Z * Z
}.

(** The body of the inner loop (lines 68-81): what the pixel at [(x, y)]
    appends to [color_data].  [rgb_to_hsv] stands for the library function
    [colorsys.rgb_to_hsv]. *)
Definition sample_pixel (rgb_to_hsv : Q -> Q -> Q -> Q * Q * Q)
    (img : Image) (x y : nat) : list ColorSample :=
  let '(r, g, b, a) := img_pixels img x y in
  if (a <? 128)%Z then []
  else
    let '(h, s, v) :=
      rgb_to_hsv (inject_Z r / 255) (inject_Z g / 255) (inject_Z b / 255) in
    let h := h * 360 in
    let s := s * 100 in
    let v := v * 100 in
    [(Z.of_nat x, Z.of_nat y, h, s, v)].

(** [for y in range(height)] for one [x]. *)
Definition extract_column (rgb_to_hsv : Q -> Q -> Q -> Q * Q * Q)
    (img : Image) (x : nat) : list ColorSample :=
  flat_map (sample_pixel rgb_to_hsv img x) (seq 0 (img_height img)).

(** [for x in range(width)] (lines 63-81): the final [color_data]. *)
Definition extract_pixels (rgb_to_hsv : Q -> Q -> Q -> Q * Q * Q)
    (img : Image) : list ColorSample :=
  flat_map (extract_column rgb_to_hsv img) (seq 0 (img_width img)).

(** ** The program *)

(** Console lines of [extract_hsv_data] and [main], by kind. *)
Inductive MainMessage : Type :=
| Banner                           (* "Image to MIDI Converter" *)
| Rule                             (* "=" * 50 *)
| Blank                            (* print() *)
| NoFileSelected                   (* "No file selected. Exiting." *)
| Selected (path : string)         (* "Selected: path" *)
| Processing                       (* "Processing image..." *)
| ImageSize (w h : nat)            (* "Image: w x h" *)
| NonTransparent (n : nat)         (* "Non-transparent pixels: n" *)
| NoOutputSelected                 (* "No output file selected. Exiting." *)
| Done                             (* "Done! Open the MIDI file in ..." *)
| ErrorOpening.                    (* "Error opening image: ..." on stderr *)

(** What the program does, in order: the two dialogs, its own console
    lines, and the actions of [create_midi_from_colors]; [sys.exit(code)]
    is [Core (Exit code)]. *)
Inductive MainEvent : Type :=
| SelectImage
| SaveMidiDialog
| Say (m : MainMessage)
| Core (a : Action).

(** [extract_hsv_data(image_path)].  [opened] is what [Image.open] followed
    by [convert] and [resize] gives for the path: [None] when opening raises.
    The function then prints and exits with code 1; otherwise it returns
    [(color_data, width, height)]. *)
Definition extract_hsv_data (rgb_to_hsv : Q -> Q -> Q -> Q * Q * Q)
    (opened : option Image)
    : list MainEvent * option (list ColorSample * nat * nat) :=
  match opened with
  | None => ([Say ErrorOpening; Core (Exit 1)], None)
  | Some img =>
      ([], Some (extract_pixels rgb_to_hsv img, img_width img, img_height img))
  end.

(** [not path] for a string: the dialogs return the empty string when they
    are cancelled. *)
Definition not_path (path : string) : bool :=
  match path with
  | EmptyString => true
  | String _ _ => false
  end.

Definition is_exit (a : Action) : bool :=
  match a with
  | Exit _ => true
  | _ => false
  end.

(** [main()].  [image_path] and [output_path] are what the two dialogs
    return.  A call that exits ends the program: nothing follows it. *)
Definition main (rgb_to_hsv : Q -> Q -> Q -> Q * Q * Q)
    (image_path : string) (opened : option Image)
    (output_path : string) (open_ok : bool) : list MainEvent :=
  [Say Banner; Say Rule; Say Blank; SelectImage]
  ++ (if not_path image_path
      then [Say NoFileSelected; Core (Exit 0)]
      else
        [Say (Selected image_path); Say Processing]
        ++ (let '(out, result) := extract_hsv_data rgb_to_hsv opened in
            out
            ++ match result with
               | None => []
               | Some (color_data, width, height) =>
                   [Say (ImageSize width height);
                    Say (NonTransparent (List.length color_data));
                    SaveMidiDialog]
                   ++ (if not_path output_path
                       then [Say NoOutputSelected; Core (Exit 0)]
                       else
                         let tr :=
                           create_midi_from_colors color_data output_path
                                                   120 open_ok in
                         List.map Core tr
                         ++ (if existsb is_exit tr then [] else [Say Done]))
               end)).

(** ** Reading traces and samples *)

(** The [(x, y)] of a sample. *)
Definition sample_xy (c : ColorSample) : Z * Z :=
  let '(x, y, _, _, _) := c in (x, y).

(** The pixel at [(x, y)] is kept: its alpha is not below 128. *)
Definition is_opaque (img : Image) (xy : nat * nat) : bool :=
  let '(_, _, _, a) := img_pixels img (fst xy) (snd xy) in
  negb (a <? 128)%Z.

(** The pixel positions of an image, column by column. *)
Definition positions (img : Image) : list (nat * nat) :=
  flat_map (fun x => List.map (pair x) (seq 0 (img_height img)))
           (seq 0 (img_width img)).

(** A position as the sample stores it. *)
Definition position_Z (p : nat * nat) : Z * Z :=
  (Z.of_nat (fst p), Z.of_nat (snd p)).

(** The actions of [create_midi_from_colors] within a run of the program. *)
Fixpoint core_actions (evs : list MainEvent) : list Action :=
  match evs with
  | [] => []
  | Core a :: evs' => a :: core_actions evs'
  | _ :: evs' => core_actions evs'
  end.

(** The sample lies in the ranges the Mapper documents. *)
Definition sample_in_range (c : ColorSample) : Prop :=
  let '(_, _, h, s, v) := c in
  0 <= h < 360 /\ 0 <= s <= 100 /\ 0 <= v <= 100.

(** [rgb_to_hsv] maps unit-range channels to a hue in [0,1) and a
    saturation and value in [0,1]. *)
Definition unit_range (rgb_to_hsv : Q -> Q -> Q -> Q * Q * Q) : Prop :=
  forall r g b,
    0 <= r <= 1 -> 0 <= g <= 1 -> 0 <= b <= 1 ->
    let '(h, s, v) := rgb_to_hsv r g b in
    0 <= h < 1 /\ 0 <= s <= 1 /\ 0 <= v <= 1.

(** The colour channels of every pixel of the image are bytes. *)
Definition byte_channels (img : Image) : Prop :=
  forall x y,
    (x < img_width img)%nat -> (y < img_height img)%nat ->
    let '(r, g, b, _) := img_pixels img x y in
    (0 <= r <= 255)%Z /\ (0 <= g <= 255)%Z /\ (0 <= b <= 255)%Z.

(** Column-major order on positions: by [x], then by [y]. *)
Definition column_major_lt (p q : Z * Z) : Prop :=
  (fst p < fst q)%Z \/ (fst p = fst q /\ (snd p < snd q)%Z).

(** The progress lines of a trace. *)
Fixpoint progress_lines (tr : list Action) : list (nat * nat) :=
  match tr with
  | [] => []
  | Print (Processed i n) :: tr' => (i, n) :: progress_lines tr'
  | _ :: tr' => progress_lines tr'
  end.

(** The number of samples that are not close to the sample before them,
    [prev] being the one before the first. *)
Fixpoint breaks (prev : HSV) (cs : list ColorSample) : nat :=
  match cs with
  | [] => 0
  | c :: cs' =>
      (if colors_are_close_default (sample_hsv c) prev then 0 else 1)
      + breaks (sample_hsv c) cs'
  end.

(** Every sample of [cs] is close to the sample before it. *)
Fixpoint always_close (prev : HSV) (cs : list ColorSample) : Prop :=
  match cs with
  | [] => True
  | c :: cs' =>
      colors_are_close_default (sample_hsv c) prev = true
      /\ always_close (sample_hsv c) cs'
  end.

(** The Mapper on a sample. *)
Definition sample_params (c : ColorSample) : Z * Z :=
  let '(_, _, h, s, v) := c in hsv_to_midi_params h s v.

(** [n] time-unit-steps, in beats. *)
Definition steps (n : nat) : Q := inject_Z (Z.of_nat n) * eighth_note.

(** The note is on track 0, channel 0, starts at the time slot of some
    sample of [full] and carries that sample's mapped pitch and velocity. *)
Definition anchored (full : list ColorSample) (n : NoteEvent) : Prop :=
  track n = 0%Z /\ channel n = 0%Z
  /\ exists j c,
      nth_error full j = Some c
      /\ startTime n == steps j
      /\ pitch n = fst (sample_params c)
      /\ velocity n = Some (snd (sample_params c)).

(** The same of the note in progress of a state. *)
Definition anchored_state (full : list ColorSample) (st : SeqState) : Prop :=
  exists j c,
    nth_error full j = Some c
    /\ note_start_time st == steps j
    /\ current_pitch st = Some (fst (sample_params c))
    /\ current_velocity st = Some (snd (sample_params c)).

(** The actions the loop itself performs: note writes and progress lines. *)
Definition loop_action (a : Action) : bool :=
  match a with
  | AddNote _ | Print (Processed _ _) => true
  | _ => false
  end.

(** ** An instance of [rgb_to_hsv]

    Python's [colorsys.rgb_to_hsv], which is library code and not part of
    the program; the Sampler's properties are stated for any [rgb_to_hsv]
    and this one serves as a concrete instance. *)
Definition colorsys_rgb_to_hsv (r g b : Q) : Q * Q * Q :=
  let maxc := Qmax r (Qmax g b) in
  let minc := Qmin r (Qmin g b) in
  let rangec := maxc - minc in
  let v := maxc in
  if Qeq_bool minc maxc then (0, 0, v)
  else
    let s := rangec / maxc in
    let rc := (maxc - r) / rangec in
    let gc := (maxc - g) / rangec in
    let bc := (maxc - b) / rangec in
    let h :=
      if Qeq_bool r maxc then bc - gc
      else if Qeq_bool g maxc then 2 + rc - bc
      else 4 + gc - rc in
    let h := h / 6 - inject_Z (Qfloor (h / 6)) in
    (h, s, v).

(** A 2 x 2 image: red and half-transparent green in column 0, blue and
    opaque grey in column 1. *)
Definition small_image : Image :=
  mkImage 2 2
    (fun x y =>
       match x, y with
       | O, O => (255, 0, 0, 255)
       | O, _ => (0, 255, 0, 100)
       | _, O => (0, 0, 255, 128)
       | _, _ => (128, 128, 128, 255)
       end)%Z.

(** ** Proof tactics *)

(** Division by the constants of the code, as multiplication by a ratio. *)
Ltac const_div :=
  unfold Qdiv;
  change (/ 100) with (1 # 100);
  change (/ 360) with (1 # 360).

(** Split the conjunctions that are written in the goal, and no others. *)
Ltac conj_split := repeat match goal with |- _ /\ _ => split end.

(** Read a variable out of an updated state. *)
Ltac st_simpl :=
  unfold advance, extend_note, start_note, init_state;
  cbn [current_time prev_hsv note_start_time current_pitch current_velocity
       accumulated_duration].

(** * Mapper *)

Section Mapper.

Lemma Zquot_pos_floor (n : Z) (d : positive) :
  (0 <= n)%Z -> Z.quot n (Z.pos d) = (n / Z.pos d)%Z.
Proof. intros Hn. apply Z.quot_div_nonneg; lia. Qed.

Lemma Zquot_neg_ceiling (n : Z) (d : positive) :
  (n <= 0)%Z -> Z.quot n (Z.pos d) = (- (- n / Z.pos d))%Z.
Proof.
  intros Hn.
  replace n with (- - n)%Z at 1 by lia.
  rewrite Z.quot_opp_l by lia.
  rewrite Z.quot_div_nonneg by lia. reflexivity.
Qed.

(** Python's [int] is the specification's truncation. *)
Lemma int_truncate (x : Q) : Py.int x = Spec.truncate x.
Proof.
  unfold Py.int, Spec.truncate.
  destruct (Qlt_le_dec x 0) as [Hneg | Hpos].
  - unfold Qceiling, Qfloor. destruct x as [n d]; simpl.
    apply Zquot_neg_ceiling.
    unfold Qlt in Hneg; simpl in Hneg. lia.
  - unfold Qfloor. destruct x as [n d]; simpl.
    apply Zquot_pos_floor.
    unfold Qle in Hpos; simpl in Hpos. lia.
Qed.

(** [max(lo, min(hi, x))] is clamping when the range is not empty. *)
Lemma max_min_clamp (lo hi x : Z) :
  (lo <= hi)%Z -> Z.max lo (Z.min hi x) = Spec.clamp lo hi x.
Proof.
  intros Hr. unfold Spec.clamp.
  destruct (Z.ltb_spec x lo); [lia|].
  destruct (Z.ltb_spec hi x); lia.
Qed.

(** The code is the specification's formula, on every input. *)
Lemma hsv_to_midi_params_spec (h s v : Q) :
  hsv_to_midi_params h s v = (Spec.pitch_of h v, Spec.velocity_of s).
Proof.
  unfold hsv_to_midi_params, Spec.pitch_of, Spec.velocity_of.
  rewrite !int_truncate, !max_min_clamp by lia.
  reflexivity.
Qed.

(** What truncation means on a non-negative number: the integer part. *)
Lemma truncate_nonneg (x : Q) :
  0 <= x ->
  inject_Z (Spec.truncate x) <= x /\ x < inject_Z (Spec.truncate x + 1).
Proof.
  intros Hx. unfold Spec.truncate.
  destruct (Qlt_le_dec x 0) as [Hneg | _]; [lra|].
  split; [apply Qfloor_le | apply Qlt_floor].
Qed.

(** In the documented input ranges the quantities that get truncated are
    non-negative, so truncation is the floor there. *)
Lemma pitch_formula_nonneg (h v : Q) :
  0 <= h -> 0 <= v -> 0 <= 21 + (v / 100 * 7) * 12 + (h / 360 * 12).
Proof. intros Hh Hv. const_div. lra. Qed.

Lemma velocity_formula_nonneg (s : Q) :
  0 <= s -> 0 <= 20 + s / 100 * 107.
Proof. intros Hs. const_div. lra. Qed.

(** So on the documented ranges the Mapper takes integer parts. *)
Lemma hsv_to_midi_params_floor (h s v : Q) :
  0 <= h -> 0 <= s -> 0 <= v ->
  hsv_to_midi_params h s v
  = (Spec.clamp 21 108 (Qfloor (21 + (v / 100 * 7) * 12 + (h / 360 * 12))),
     Spec.clamp 20 127 (Qfloor (20 + s / 100 * 107))).
Proof.
  intros Hh Hs Hv. rewrite hsv_to_midi_params_spec.
  unfold Spec.pitch_of, Spec.velocity_of, Spec.truncate.
  pose proof (pitch_formula_nonneg h v Hh Hv) as Hp.
  pose proof (velocity_formula_nonneg s Hs) as Hw.
  destruct (Qlt_le_dec (21 + (v / 100 * 7) * 12 + (h / 360 * 12)) 0);
    destruct (Qlt_le_dec (20 + s / 100 * 107) 0);
    try reflexivity; lra.
Qed.

(** Truncation does not see which fraction represents a number. *)
Lemma int_comp (x y : Q) : x == y -> Py.int x = Py.int y.
Proof.
  intros Hxy. rewrite !int_truncate. unfold Spec.truncate.
  destruct (Qlt_le_dec x 0), (Qlt_le_dec y 0); try lra.
  - apply Qceiling_comp, Hxy.
  - apply Qfloor_comp, Hxy.
Qed.


(** The pitch clamp, in contrast, is needed: a bright colour overshoots
    the top of the keyboard before clamping. *)
Example pitch_clamp_active :
  Py.int (21 + (100 / 100 * 7) * 12 + (180 / 360 * 12)) = 111%Z
  /\ fst (hsv_to_midi_params 180 50 100) = 108%Z.
Proof. split; reflexivity. Qed.

(** C4.  For hue in [0,360) and saturation, value in [0,100] the Mapper
    returns a pitch in [21,108] and a velocity in [20,127].  The
    embedding is a total function: there is no input on which it fails. *)
Theorem hsv_to_midi_params_range (h s v : Q) :
  0 <= h < 360 -> 0 <= s <= 100 -> 0 <= v <= 100 ->
  (21 <= fst (hsv_to_midi_params h s v) <= 108)%Z
  /\ (20 <= snd (hsv_to_midi_params h s v) <= 127)%Z.
Proof.
  intros _ _ _. unfold hsv_to_midi_params; cbn [fst snd]. lia.
Qed.

Lemma hsv_to_midi_params_range_witness :
  (0 <= 180 < 360) /\ (0 <= 50 <= 100) /\ (0 <= 100 <= 100)
  /\ (21 <= fst (hsv_to_midi_params 180 50 100) <= 108)%Z
  /\ (20 <= snd (hsv_to_midi_params 180 50 100) <= 127)%Z.
Proof.
  assert (Hh : 0 <= 180 < 360) by (split; [discriminate | reflexivity]).
  assert (Hs : 0 <= 50 <= 100) by (split; discriminate).
  assert (Hv : 0 <= 100 <= 100) by (split; discriminate).
  split; [exact Hh | split; [exact Hs | split; [exact Hv |]]].
  exact (hsv_to_midi_params_range 180 50 100 Hh Hs Hv).
Defined.



(** C10.  The pitch depends only on hue and value and the velocity only
    on saturation: inputs that agree on hue and value get equal pitches
    whatever their saturations, inputs that agree on saturation get equal
    velocities whatever their hues and values. *)
Theorem hsv_to_midi_params_independence (h1 s1 v1 h2 s2 v2 : Q) :
  (h1 == h2 -> v1 == v2 ->
   fst (hsv_to_midi_params h1 s1 v1) = fst (hsv_to_midi_params h2 s2 v2))
  /\ (s1 == s2 ->
      snd (hsv_to_midi_params h1 s1 v1) = snd (hsv_to_midi_params h2 s2 v2)).
Proof.
  unfold hsv_to_midi_params; cbn [fst snd]. split.
  - intros Hh Hv.
    rewrite (int_comp (21 + v1 / 100 * 7 * 12 + h1 / 360 * 12)
                      (21 + v2 / 100 * 7 * 12 + h2 / 360 * 12)).
    + reflexivity.
    + rewrite Hh, Hv. reflexivity.
  - intros Hs.
    rewrite (int_comp (20 + s1 / 100 * 107) (20 + s2 / 100 * 107)).
    + reflexivity.
    + rewrite Hs. reflexivity.
Qed.

Lemma hsv_to_midi_params_independence_witness :
  fst (hsv_to_midi_params 120 0 75) = fst (hsv_to_midi_params (240 # 2) 100 75)
  /\ snd (hsv_to_midi_params 0 40 0) = snd (hsv_to_midi_params 300 (80 # 2) 90).
Proof.
  split.
  - apply (proj1 (hsv_to_midi_params_independence 120 0 75 (240 # 2) 100 75));
      reflexivity.
  - apply (proj2 (hsv_to_midi_params_independence 0 40 0 300 (80 # 2) 90));
      reflexivity.
Defined.

End Mapper.

(** * Similarity predicate *)

Section Similarity.

(** The hue difference the code computes is the specification's. *)
Lemma hue_diff_code (d : Q) :
  (if Py.gt d 180 then 360 - d else d)
  = (if Qlt_le_dec 180 d then 360 - d else d).
Proof.
  unfold Py.gt.
  destruct (Qlt_le_dec 180 d) as [Hgt | Hle];
    destruct (Qle_bool d 180) eqn:Hb; cbn [negb]; try reflexivity.
  - apply Qle_bool_iff in Hb. lra.
  - apply Qle_bool_iff in Hle. congruence.
Qed.


Lemma colors_are_close_iff (h1 s1 v1 h2 s2 v2 tH tS tV : Q) :
  colors_are_close (h1, s1, v1) (h2, s2, v2) tH tS tV = true
  <-> Spec.hueDiff h1 h2 <= tH
      /\ Qabs (s1 - s2) <= tS
      /\ Qabs (v1 - v2) <= tV.
Proof.
  unfold colors_are_close, Py.le, Py.abs, Spec.hueDiff.
  rewrite hue_diff_code, !andb_true_iff, !Qle_bool_iff.
  tauto.
Qed.


(** C7.  [colors_are_close] is symmetric in its two colours, for any
    thresholds. *)
Theorem colors_are_close_sym (a b : HSV) (tH tS tV : Q) :
  colors_are_close a b tH tS tV = colors_are_close b a tH tS tV.
Proof.
  destruct a as [[h1 s1] v1], b as [[h2 s2] v2].
  unfold colors_are_close, Py.abs.
  rewrite (Qabs_Qminus h2 h1), (Qabs_Qminus s2 s1), (Qabs_Qminus v2 v1).
  reflexivity.
Qed.

End Similarity.

(** * Sequencer *)

Section Sequencer.

Variables (total : nat).

Lemma notes_of_app (t1 t2 : list Action) :
  notes_of (t1 ++ t2) = notes_of t1 ++ notes_of t2.
Proof.
  induction t1 as [| a t1 IH]; [reflexivity|].
  destruct a; cbn [notes_of app]; rewrite ?IH; reflexivity.
Qed.

Lemma notes_of_progress (i : nat) : notes_of (progress total i) = [].
Proof. unfold progress. destruct (Nat.eqb _ 0); reflexivity. Qed.

(** *** The two branches of an iteration *)

Lemma loop_body_extend i x y h s v st :
  should_extend (h, s, v) (prev_hsv st) = true ->
  loop_body total i (x, y, h, s, v) st
  = (progress total i, advance (h, s, v) (extend_note st)).
Proof.
  intros Hext. unfold loop_body.
  destruct (hsv_to_midi_params h s v). rewrite Hext. reflexivity.
Qed.

Lemma loop_body_start i x y h s v st :
  should_extend (h, s, v) (prev_hsv st) = false ->
  loop_body total i (x, y, h, s, v) st
  = (write_note st ++ progress total i,
     advance (h, s, v)
       (start_note (fst (hsv_to_midi_params h s v))
                   (snd (hsv_to_midi_params h s v)) st)).
Proof.
  intros Hext. unfold loop_body.
  destruct (hsv_to_midi_params h s v). rewrite Hext. reflexivity.
Qed.

Lemma run_notes_nil i st : run_notes total i [] st = notes_of (write_note st).
Proof. reflexivity. Qed.

Lemma run_notes_cons i c cs st :
  run_notes total i (c :: cs) st
  = notes_of (fst (loop_body total i c st))
    ++ run_notes total (S i) cs (snd (loop_body total i c st)).
Proof.
  unfold run_notes; cbn [loop].
  destruct (loop_body total i c st) as [out1 st1]; cbn [fst snd].
  destruct (loop total (S i) cs st1) as [out2 st2].
  rewrite notes_of_app, app_assoc. reflexivity.
Qed.

Lemma whole_steps_one : Spec.whole_steps eighth_note.
Proof. exists 1%positive. reflexivity. Qed.

Lemma whole_steps_succ d :
  Spec.whole_steps d -> Spec.whole_steps (d + eighth_note).
Proof.
  intros [k Hk]. exists (k + 1)%positive.
  rewrite Hk, Pos2Z.inj_add, inject_Z_plus. ring.
Qed.

Lemma whole_steps_pos d : Spec.whole_steps d -> 0 < d.
Proof.
  intros [k Hk]. rewrite Hk.
  apply Qmult_lt_0_compat; [| reflexivity].
  unfold Qlt; simpl. lia.
Qed.

(** The first iteration from the initial variables starts a note and
    writes nothing. *)
Lemma loop_body_init i c :
  notes_of (fst (loop_body total i c init_state)) = []
  /\ pending (snd (loop_body total i c init_state))
  /\ note_start_time (snd (loop_body total i c init_state)) == 0
  /\ accumulated_duration (snd (loop_body total i c init_state))
     == eighth_note.
Proof.
  destruct c as [[[[x y] h] s] v].
  rewrite loop_body_start by reflexivity. cbn [fst snd].
  rewrite notes_of_app, notes_of_progress.
  repeat split; st_simpl; try reflexivity; eauto using whole_steps_one.
Qed.

(** An iteration on a state with a note in progress either extends that
    note and writes nothing, or writes it and starts the next note where
    the written one ends. *)
Lemma loop_body_pending i c st :
  pending st ->
  let out := notes_of (fst (loop_body total i c st)) in
  let st' := snd (loop_body total i c st) in
  pending st'
  /\ ((out = []
       /\ note_start_time st' = note_start_time st
       /\ accumulated_duration st' = accumulated_duration st + eighth_note
       /\ current_pitch st' = current_pitch st
       /\ current_velocity st' = current_velocity st)
      \/ (out = note_in_progress st
          /\ note_start_time st' = current_time st
          /\ accumulated_duration st' = eighth_note)).
Proof.
  intros [[p Hp] [w Hw] [q Hq] Hclock Hsteps].
  destruct c as [[[[x y] h] s] v]. cbn zeta.
  destruct (should_extend (h, s, v) (prev_hsv st)) eqn:Hext.
  - rewrite loop_body_extend by exact Hext. cbn [fst snd].
    rewrite notes_of_progress. split.
    + constructor; st_simpl; eauto using whole_steps_succ.
      rewrite <- Hclock. ring.
    + left. st_simpl. auto.
  - rewrite loop_body_start by exact Hext. cbn [fst snd].
    rewrite notes_of_app, notes_of_progress, app_nil_r. split.
    + constructor; st_simpl; eauto using whole_steps_one. reflexivity.
    + right. st_simpl. auto.
Qed.

Lemma note_in_progress_pending st :
  pending st ->
  exists n, note_in_progress st = [n]
            /\ startTime n = note_start_time st
            /\ duration n = accumulated_duration st
            /\ Some (pitch n) = current_pitch st
            /\ velocity n = current_velocity st.
Proof.
  intros [[p Hp] _ _ _ _].
  unfold note_in_progress, write_note. rewrite Hp. cbn.
  eexists; repeat split.
Qed.

(** [n] time-unit-steps, in beats. *)
Lemma steps_succ (n : nat) :
  inject_Z (Z.of_nat (S n)) * eighth_note
  == eighth_note + inject_Z (Z.of_nat n) * eighth_note.
Proof.
  rewrite Nat2Z.inj_succ. unfold Z.succ. rewrite inject_Z_plus.
  change (inject_Z 1) with 1. ring.
Qed.

(** *** The run from a state with a note in progress

    The notes written from such a state on begin with the note in
    progress (possibly extended), are contiguous, last together as long
    as the note in progress plus one step per remaining sample, and each
    lasts a whole number of steps. *)
Lemma run_notes_pending (cs : list ColorSample) :
  forall i st,
    pending st ->
    exists n ns,
      run_notes total i cs st = n :: ns
      /\ startTime n = note_start_time st
      /\ Some (pitch n) = current_pitch st
      /\ velocity n = current_velocity st
      /\ Spec.contiguous (n :: ns)
      /\ Spec.total_duration (n :: ns)
         == accumulated_duration st
            + inject_Z (Z.of_nat (List.length cs)) * eighth_note
      /\ Forall (fun m => Spec.whole_steps (duration m)) (n :: ns).
Proof.
  induction cs as [| c cs IH]; intros i st Hpend.
  - rewrite run_notes_nil.
    destruct (note_in_progress_pending st Hpend)
      as (n & Hn & Hstart & Hdur & Hpitch & Hvel).
    exists n, []. fold (note_in_progress st). rewrite Hn.
    conj_split; auto.
    + cbn; auto.
    + cbn. rewrite Hdur. ring.
    + constructor; [| constructor]. rewrite Hdur. apply Hpend.
  - rewrite run_notes_cons.
    destruct (loop_body_pending i c st Hpend) as [Hpend' Hcase].
    destruct (IH (S i) _ Hpend')
      as (n & ns & Hrun & Hstart & Hpitch & Hvel & Hcont & Htot & Hall).
    destruct Hcase as [(Hout & Hs & Ha & Hp & Hv) | (Hout & Hs & Ha)].
    + (* the sample extends the note in progress *)
      rewrite Hout, Hrun. exists n, ns. cbn [app].
      rewrite Hstart, Hs, Hpitch, Hp, Hvel, Hv.
      conj_split; auto.
      cbn [List.length]. rewrite Htot, Ha, steps_succ. ring.
    + (* the sample ends the note in progress and starts the next *)
      destruct (note_in_progress_pending st Hpend)
        as (n0 & Hn0 & Hstart0 & Hdur0 & Hpitch0 & Hvel0).
      rewrite Hout, Hn0, Hrun. exists n0, (n :: ns). cbn [app].
      conj_split; auto.
      * split; [| exact Hcont].
        rewrite Hstart0, Hdur0, Hstart, Hs. apply Hpend.
      * cbn [Spec.total_duration List.length] in Htot |- *.
        rewrite Htot, Hdur0, Ha, steps_succ. ring.
      * constructor; [| exact Hall]. rewrite Hdur0. apply Hpend.
Qed.

(** *** The run from the initial variables *)

Lemma run_notes_init (c : ColorSample) (cs : list ColorSample) :
  exists n ns,
    run_notes total 0 (c :: cs) init_state = n :: ns
    /\ startTime n == 0
    /\ Spec.contiguous (n :: ns)
    /\ Spec.total_duration (n :: ns)
       == inject_Z (Z.of_nat (List.length (c :: cs))) * eighth_note
    /\ Forall (fun m => Spec.whole_steps (duration m)) (n :: ns).
Proof.
  rewrite run_notes_cons.
  destruct (loop_body_init 0 c) as (Hout & Hpend & Hstart & Hacc).
  destruct (run_notes_pending cs 1 _ Hpend)
    as (n & ns & Hrun & Hs & _ & _ & Hcont & Htot & Hall).
  rewrite Hout, Hrun. exists n, ns. cbn [app].
  conj_split; auto.
  - rewrite Hs. exact Hstart.
  - rewrite Htot, Hacc. cbn [List.length]. rewrite steps_succ. reflexivity.
Qed.

End Sequencer.

(** * The emitted NoteEvents *)

Section Lists.

Lemma contiguous_nth (ns : list NoteEvent) :
  Spec.contiguous ns ->
  forall i a b,
    nth_error ns i = Some a -> nth_error ns (S i) = Some b ->
    startTime a + duration a == startTime b.
Proof.
  induction ns as [| n ns IH]; intros Hc i a b Ha Hb.
  - destruct i; discriminate.
  - destruct Hc as [Hhead Htail]. destruct i as [| i].
    + cbn in Ha, Hb. injection Ha as <-.
      destruct ns as [| n2 ns]; [discriminate|].
      cbn in Hb. injection Hb as <-. exact Hhead.
    + cbn in Ha, Hb. exact (IH Htail i a b Ha Hb).
Qed.

(** In a contiguous list of notes that do not last a negative time,
    later notes do not start earlier. *)
Lemma contiguous_monotone (ns : list NoteEvent) :
  Spec.contiguous ns ->
  Forall (fun m => 0 <= duration m) ns ->
  forall j i a b,
    (i <= j)%nat ->
    nth_error ns i = Some a -> nth_error ns j = Some b ->
    startTime a <= startTime b.
Proof.
  intros Hc Hpos. induction j as [| j IH]; intros i a b Hij Ha Hb.
  - assert (i = 0%nat) by lia. subst i.
    rewrite Ha in Hb. injection Hb as <-. apply Qle_refl.
  - destruct (Nat.eq_dec i (S j)) as [-> | Hne].
    + rewrite Ha in Hb. injection Hb as <-. apply Qle_refl.
    + destruct (nth_error ns j) as [m |] eqn:Hm.
      * assert (Hstep : startTime m + duration m == startTime b)
          by exact (contiguous_nth ns Hc j m b Hm Hb).
        assert (Hdur : 0 <= duration m).
        { rewrite Forall_forall in Hpos.
          apply Hpos. eapply nth_error_In; eauto. }
        assert (Hle : startTime a <= startTime m)
          by (apply (IH i); [lia | exact Ha | reflexivity]).
        lra.
      * apply nth_error_None in Hm.
        assert (nth_error ns (S j) = None)
          by (apply nth_error_None; lia).
        congruence.
Qed.

End Lists.

Section Emitted.

Variables (output_path : string) (bpm : Z) (open_ok : bool).

(** The NoteEvents of a whole call are those of the loop and the final
    write. *)
Lemma emitted_run (cs : list ColorSample) :
  emitted cs output_path bpm open_ok
  = run_notes (List.length cs) 0 cs init_state.
Proof.
  destruct cs as [| c cs]; [reflexivity|].
  unfold emitted, create_midi_from_colors, run_notes.
  destruct (loop (List.length (c :: cs)) 0 (c :: cs) init_state)
    as [out st].
  cbn [app notes_of]. rewrite !notes_of_app.
  destruct open_ok; cbn [notes_of]; rewrite app_nil_r; reflexivity.
Qed.

(** The shape of the output for a non-empty input. *)
Lemma emitted_shape (c : ColorSample) (cs : list ColorSample) :
  exists n ns,
    emitted (c :: cs) output_path bpm open_ok = n :: ns
    /\ startTime n == 0
    /\ Spec.contiguous (n :: ns)
    /\ Spec.total_duration (n :: ns)
       == inject_Z (Z.of_nat (List.length (c :: cs))) * eighth_note
    /\ Forall (fun m => Spec.whole_steps (duration m)) (n :: ns).
Proof. rewrite emitted_run. apply run_notes_init. Qed.

End Emitted.

(** * The merge decision *)

Section Merge.

Variable total : nat.

(** An iteration whose sample is close to the previous one extends the
    note in progress and changes nothing else about it. *)
Lemma loop_body_close i x y h s v st prev :
  prev_hsv st = Some prev ->
  colors_are_close (h, s, v) prev 15 15 15 = true ->
  let st' := snd (loop_body total i (x, y, h, s, v) st) in
  accumulated_duration st' = accumulated_duration st + eighth_note
  /\ current_pitch st' = current_pitch st
  /\ current_velocity st' = current_velocity st
  /\ note_start_time st' = note_start_time st
  /\ notes_of (fst (loop_body total i (x, y, h, s, v) st)) = [].
Proof.
  intros Hprev Hclose. cbn zeta.
  rewrite loop_body_extend
    by (unfold should_extend; rewrite Hprev; exact Hclose).
  cbn [fst snd]. rewrite notes_of_progress. st_simpl. auto.
Qed.

Lemma loop_body_prev i c st :
  prev_hsv (snd (loop_body total i c st)) = Some (sample_hsv c).
Proof.
  destruct c as [[[[x y] h] s] v]. unfold loop_body.
  destruct (hsv_to_midi_params h s v).
  destruct (should_extend (h, s, v) (prev_hsv st)); reflexivity.
Qed.

(** An iteration whose sample is not close to the previous one writes the
    note in progress. *)
Lemma loop_body_far i c st prev :
  prev_hsv st = Some prev ->
  colors_are_close_default (sample_hsv c) prev = false ->
  notes_of (fst (loop_body total i c st)) = note_in_progress st.
Proof.
  intros Hprev Hfar. destruct c as [[[[x y] h] s] v].
  rewrite loop_body_start
    by (unfold should_extend; rewrite Hprev; exact Hfar).
  cbn [fst]. rewrite notes_of_app, notes_of_progress, app_nil_r.
  reflexivity.
Qed.


End Merge.

Section HueDistance.




End HueDistance.

(** * The Sequencer's properties *)

(** The merging scenario, evaluated: two notes; the first keeps the pitch
    and velocity of the first sample (63, 73) although the second sample
    maps to (64, 75). *)
Example merging_trace :
  List.map (fun n => (pitch n, velocity n, Qred (startTime n), Qred (duration n)))
           (emitted merging_samples "out.mid" 120 true)
  = [(63%Z, Some 73%Z, 0, 1); (69%Z, Some 73%Z, 1, 1 # 2)]
  /\ hsv_to_midi_params 12 52 51 = (64%Z, 75%Z).
Proof. split; vm_compute; reflexivity. Qed.

(** Hues 359 and 1 are 358 apart as numbers and 2 apart on the circle: the
    two samples merge into one note. *)
Example wraparound_pair_merges :
  List.length (emitted [(0%Z, 0%Z, 359, 50, 50); (0%Z, 1%Z, 1, 50, 50)]
                       "out.mid" 120 true) = 1%nat.
Proof. reflexivity. Qed.

(** C1.  A sample that has a previous HSV triple and is close to it extends
    the note in progress by exactly one time-unit-step and leaves its pitch
    and velocity (and start) as they were, writing nothing; on the samples
    (10,50,50), (12,52,51), (200,50,50) the Sequencer emits exactly two
    NoteEvents, of 2 steps and of 1 step, the first with the pitch and
    velocity mapped from the first sample. *)
Theorem sequencer_merge (output_path : string) (bpm : Z) (open_ok : bool) :
  (forall total i x y h s v st prev,
      prev_hsv st = Some prev ->
      colors_are_close (h, s, v) prev 15 15 15 = true ->
      accumulated_duration (snd (loop_body total i (x, y, h, s, v) st))
      = accumulated_duration st + eighth_note
      /\ current_pitch (snd (loop_body total i (x, y, h, s, v) st))
         = current_pitch st
      /\ current_velocity (snd (loop_body total i (x, y, h, s, v) st))
         = current_velocity st
      /\ note_start_time (snd (loop_body total i (x, y, h, s, v) st))
         = note_start_time st
      /\ notes_of (fst (loop_body total i (x, y, h, s, v) st)) = [])
  /\ exists n1 n2,
      emitted merging_samples output_path bpm open_ok = [n1; n2]
      /\ duration n1 == 2 * eighth_note
      /\ duration n2 == eighth_note
      /\ pitch n1 = fst (hsv_to_midi_params 10 50 50)
      /\ velocity n1 = Some (snd (hsv_to_midi_params 10 50 50)).
Proof.
  split.
  - intros total i x y h s v st prev Hprev Hclose.
    exact (loop_body_close total i x y h s v st prev Hprev Hclose).
  - rewrite emitted_run. vm_compute.
    eexists; eexists; split; [reflexivity|].
    cbn [duration pitch velocity]. conj_split; reflexivity.
Qed.

Lemma sequencer_merge_witness :
  let st := snd (loop_body 3 0 (0%Z, 0%Z, 10, 50, 50) init_state) in
  let st' := snd (loop_body 3 1 (0%Z, 1%Z, 12, 52, 51) st) in
  accumulated_duration st' = accumulated_duration st + eighth_note
  /\ current_pitch st' = current_pitch st
  /\ current_velocity st' = current_velocity st
  /\ note_start_time st' = note_start_time st
  /\ notes_of (fst (loop_body 3 1 (0%Z, 1%Z, 12, 52, 51) st)) = [].
Proof.
  cbv zeta.
  apply (proj1 (sequencer_merge "out.mid" 120 true)
           3%nat 1%nat 0%Z 1%Z 12 52 51
           (snd (loop_body 3 0 (0%Z, 0%Z, 10, 50, 50) init_state))
           (10, 50, 50));
    reflexivity.
Defined.

(** C2.  The emitted NoteEvents are contiguous (each starts where the one
    before it ends), their start times do not decrease in emission order,
    and each lasts a whole number, at least one, of time-unit-steps. *)
Theorem sequencer_contiguous (cs : list ColorSample)
    (output_path : string) (bpm : Z) (open_ok : bool) :
  (forall i a b,
      nth_error (emitted cs output_path bpm open_ok) i = Some a ->
      nth_error (emitted cs output_path bpm open_ok) (S i) = Some b ->
      startTime a + duration a == startTime b)
  /\ (forall i j a b,
        (i <= j)%nat ->
        nth_error (emitted cs output_path bpm open_ok) i = Some a ->
        nth_error (emitted cs output_path bpm open_ok) j = Some b ->
        startTime a <= startTime b)
  /\ (forall n,
        In n (emitted cs output_path bpm open_ok) ->
        exists k : positive, duration n == inject_Z (Z.pos k) * eighth_note).
Proof.
  destruct cs as [| c cs].
  - cbn. conj_split.
    + intros [| i] a b Ha; discriminate.
    + intros [| i] j a b _ Ha; discriminate.
    + intros n [].
  - destruct (emitted_shape output_path bpm open_ok c cs)
      as (n & ns & -> & _ & Hcont & _ & Hall).
    conj_split.
    + exact (contiguous_nth _ Hcont).
    + intros i j a b. apply (contiguous_monotone _ Hcont).
      eapply Forall_impl; [| exact Hall].
      intros m Hm. apply Qlt_le_weak, whole_steps_pos, Hm.
    + rewrite Forall_forall in Hall. exact Hall.
Qed.

Lemma sequencer_contiguous_witness :
  exists a b,
    nth_error (emitted merging_samples "out.mid" 120 true) 0 = Some a
    /\ nth_error (emitted merging_samples "out.mid" 120 true) 1 = Some b
    /\ startTime a + duration a == startTime b.
Proof.
  eexists; eexists.
  split; [reflexivity | split; [reflexivity |]].
  apply (proj1 (sequencer_contiguous merging_samples "out.mid" 120 true)
           0%nat);
    reflexivity.
Defined.

(** C3.  For a non-empty sample sequence of length N the durations of the
    emitted NoteEvents add up to N time-unit-steps. *)
Theorem sequencer_total_duration (cs : list ColorSample)
    (output_path : string) (bpm : Z) (open_ok : bool) :
  cs <> [] ->
  Spec.total_duration (emitted cs output_path bpm open_ok)
  == inject_Z (Z.of_nat (List.length cs)) * eighth_note.
Proof.
  intros Hne. destruct cs as [| c cs]; [congruence|].
  destruct (emitted_shape output_path bpm open_ok c cs)
    as (n & ns & -> & _ & _ & Htot & _).
  exact Htot.
Qed.

Lemma sequencer_total_duration_witness :
  merging_samples <> []
  /\ Spec.total_duration (emitted merging_samples "out.mid" 120 true)
     == inject_Z (Z.of_nat (List.length merging_samples)) * eighth_note.
Proof.
  assert (Hne : merging_samples <> []) by discriminate.
  split; [exact Hne|].
  exact (sequencer_total_duration merging_samples "out.mid" 120 true Hne).
Defined.

(** C8.  On an empty sample sequence the call only prints that there is
    nothing to convert: no NoteEvent is emitted and no action touches the
    MIDI writer, so no file is written.  On a sequence of length at least 1
    at least one NoteEvent is emitted. *)
Theorem sequencer_empty_and_flush
    (output_path : string) (bpm : Z) (open_ok : bool) :
  (create_midi_from_colors [] output_path bpm open_ok = [Print NoColorData]
   /\ emitted [] output_path bpm open_ok = []
   /\ existsb is_midi_action
        (create_midi_from_colors [] output_path bpm open_ok) = false)
  /\ (forall cs,
        (1 <= List.length cs)%nat ->
        (1 <= List.length (emitted cs output_path bpm open_ok))%nat).
Proof.
  split.
  - conj_split; reflexivity.
  - intros [| c cs] Hlen; [cbn in Hlen; lia|].
    destruct (emitted_shape output_path bpm open_ok c cs)
      as (n & ns & -> & _).
    cbn. lia.
Qed.

Lemma sequencer_empty_and_flush_witness :
  (1 <= List.length merging_samples)%nat
  /\ (1 <= List.length (emitted merging_samples "out.mid" 120 true))%nat.
Proof.
  assert (Hlen : (1 <= List.length merging_samples)%nat) by (cbn; lia).
  split; [exact Hlen|].
  exact (proj2 (sequencer_empty_and_flush "out.mid" 120 true)
           merging_samples Hlen).
Defined.



(** * More on the Mapper *)

Section MapperOrder.

Lemma truncate_monotone (x y : Q) :
  x <= y -> (Spec.truncate x <= Spec.truncate y)%Z.
Proof.
  intros Hxy. unfold Spec.truncate.
  destruct (Qlt_le_dec x 0) as [Hx | Hx], (Qlt_le_dec y 0) as [Hy | Hy].
  - apply Qceiling_resp_le, Hxy.
  - apply Z.le_trans with 0%Z.
    + change 0%Z with (Qceiling 0). apply Qceiling_resp_le. lra.
    + change 0%Z with (Qfloor 0). apply Qfloor_resp_le, Hy.
  - lra.
  - apply Qfloor_resp_le, Hxy.
Qed.

Lemma int_monotone (x y : Q) : x <= y -> (Py.int x <= Py.int y)%Z.
Proof. rewrite !int_truncate. apply truncate_monotone. Qed.


End MapperOrder.

(** X1.  A larger hue or value never gives a lower pitch, and a larger
    saturation never gives a lower velocity. *)
Theorem hsv_to_midi_params_monotone (h s v h' s' v' : Q) :
  h <= h' -> s <= s' -> v <= v' ->
  (fst (hsv_to_midi_params h s v) <= fst (hsv_to_midi_params h' s' v'))%Z
  /\ (snd (hsv_to_midi_params h s v) <= snd (hsv_to_midi_params h' s' v'))%Z.
Proof.
  intros Hh Hs Hv. unfold hsv_to_midi_params; cbn [fst snd].
  assert (Hp : (Py.int (21 + v / 100 * 7 * 12 + h / 360 * 12)
                <= Py.int (21 + v' / 100 * 7 * 12 + h' / 360 * 12))%Z).
  { apply int_monotone. const_div. lra. }
  assert (Hw : (Py.int (20 + s / 100 * 107)
                <= Py.int (20 + s' / 100 * 107))%Z).
  { apply int_monotone. const_div. lra. }
  lia.
Qed.

Lemma hsv_to_midi_params_monotone_witness :
  (fst (hsv_to_midi_params 30 20 40) <= fst (hsv_to_midi_params 200 90 60))%Z
  /\ (snd (hsv_to_midi_params 30 20 40) <= snd (hsv_to_midi_params 200 90 60))%Z.
Proof.
  apply (hsv_to_midi_params_monotone 30 20 40 200 90 60); discriminate.
Defined.




(** * More on the similarity predicate *)

Section SimilarityFacts.

Lemma Qabs_self (x : Q) : Qabs (x - x) == 0.
Proof.
  assert (H : x - x == 0) by ring.
  rewrite (Qabs_wd _ _ H). reflexivity.
Qed.

Lemma hueDiff_self (h : Q) : Spec.hueDiff h h == 0.
Proof.
  unfold Spec.hueDiff. pose proof (Qabs_self h) as H0.
  destruct (Qlt_le_dec 180 (Qabs (h - h))); [lra | exact H0].
Qed.

(** Hues 360 or more apart: the wrapped difference is not positive. *)
Lemma hueDiff_beyond (h1 h2 : Q) :
  360 <= Qabs (h1 - h2) -> Spec.hueDiff h1 h2 <= 0.
Proof.
  intros Hfar. unfold Spec.hueDiff.
  destruct (Qlt_le_dec 180 (Qabs (h1 - h2))); lra.
Qed.

End SimilarityFacts.

(** X4.  A colour is close to itself exactly when no threshold is
    negative. *)
Theorem colors_are_close_refl (a : HSV) (tH tS tV : Q) :
  colors_are_close a a tH tS tV = true <-> 0 <= tH /\ 0 <= tS /\ 0 <= tV.
Proof.
  destruct a as [[h s] v]. rewrite colors_are_close_iff.
  pose proof (hueDiff_self h) as Hh.
  pose proof (Qabs_self s) as Hs.
  pose proof (Qabs_self v) as Hv.
  split; intros (H1 & H2 & H3); conj_split; lra.
Qed.

(** X5.  Widening the thresholds keeps close colours close. *)
Theorem colors_are_close_widen (a b : HSV) (tH tS tV tH' tS' tV' : Q) :
  tH <= tH' -> tS <= tS' -> tV <= tV' ->
  colors_are_close a b tH tS tV = true ->
  colors_are_close a b tH' tS' tV' = true.
Proof.
  destruct a as [[h1 s1] v1], b as [[h2 s2] v2].
  intros HH HS HV. rewrite !colors_are_close_iff.
  intros (H1 & H2 & H3). conj_split; lra.
Qed.

Lemma colors_are_close_widen_witness :
  colors_are_close (10, 50, 50) (12, 52, 51) 20 30 40 = true.
Proof.
  apply (colors_are_close_widen (10, 50, 50) (12, 52, 51) 15 15 15 20 30 40);
    first [discriminate | reflexivity].
Defined.

(** X6.  Hues that are 360 or more apart as numbers pass the hue test
    under any non-negative hue threshold: closeness is then decided by
    saturation and value alone. *)
Theorem colors_are_close_beyond_circle
    (h1 s1 v1 h2 s2 v2 tH tS tV : Q) :
  360 <= Qabs (h1 - h2) -> 0 <= tH ->
  colors_are_close (h1, s1, v1) (h2, s2, v2) tH tS tV
  = Py.le (Py.abs (s1 - s2)) tS && Py.le (Py.abs (v1 - v2)) tV.
Proof.
  intros Hfar HtH.
  pose proof (hueDiff_beyond h1 h2 Hfar) as Hd.
  destruct (Py.le (Py.abs (s1 - s2)) tS && Py.le (Py.abs (v1 - v2)) tV)
    eqn:Hrest.
  - apply colors_are_close_iff.
    unfold Py.le, Py.abs in Hrest.
    rewrite andb_true_iff, !Qle_bool_iff in Hrest.
    destruct Hrest. conj_split; auto; lra.
  - destruct (colors_are_close (h1, s1, v1) (h2, s2, v2) tH tS tV) eqn:Hc;
      [| reflexivity].
    apply colors_are_close_iff in Hc. destruct Hc as (_ & H2 & H3).
    unfold Py.le, Py.abs in Hrest.
    apply andb_false_iff in Hrest.
    destruct Hrest as [Hr | Hr];
      [apply Qle_bool_iff in H2 | apply Qle_bool_iff in H3]; congruence.
Qed.

Lemma colors_are_close_beyond_circle_witness :
  colors_are_close (0, 50, 50) (720, 55, 45) 15 15 15
  = Py.le (Py.abs (50 - 55)) 15 && Py.le (Py.abs (50 - 45)) 15.
Proof.
  apply (colors_are_close_beyond_circle 0 50 50 720 55 45 15 15 15);
    discriminate.
Defined.

(** * More on the Sequencer *)

Section SequencerRuns.

Variable total : nat.

(** The two ways an iteration can go. *)
Lemma loop_body_cases i x y h s v st :
  (should_extend (h, s, v) (prev_hsv st) = true
   /\ loop_body total i (x, y, h, s, v) st
      = (progress total i, advance (h, s, v) (extend_note st)))
  \/ (should_extend (h, s, v) (prev_hsv st) = false
      /\ loop_body total i (x, y, h, s, v) st
         = (write_note st ++ progress total i,
            advance (h, s, v)
              (start_note (fst (hsv_to_midi_params h s v))
                          (snd (hsv_to_midi_params h s v)) st))).
Proof.
  destruct (should_extend (h, s, v) (prev_hsv st)) eqn:Hext.
  - left. split; [reflexivity|]. apply loop_body_extend, Hext.
  - right. split; [reflexivity|]. apply loop_body_start, Hext.
Qed.

(** One more note than there are breaks after the note in progress. *)
Lemma run_notes_count (cs : list ColorSample) :
  forall i st prev,
    pending st ->
    prev_hsv st = Some prev ->
    List.length (run_notes total i cs st) = S (breaks prev cs).
Proof.
  induction cs as [| c cs IH]; intros i st prev Hpend Hprev.
  - rewrite run_notes_nil.
    destruct (note_in_progress_pending st Hpend) as (n & Hn & _).
    fold (note_in_progress st). rewrite Hn. reflexivity.
  - rewrite run_notes_cons, length_app. cbn [breaks].
    rewrite (IH (S i) _ (sample_hsv c));
      [| apply loop_body_pending, Hpend | apply loop_body_prev].
    destruct (colors_are_close_default (sample_hsv c) prev) eqn:Hclose.
    + destruct c as [[[[x y] h] s] v].
      destruct (loop_body_close total i x y h s v st prev Hprev Hclose)
        as (_ & _ & _ & _ & ->).
      reflexivity.
    + rewrite (loop_body_far total i c st prev Hprev Hclose).
      destruct (note_in_progress_pending st Hpend) as (n & -> & _).
      cbn [List.length]. lia.
Qed.

Lemma steps_S (n : nat) : steps (S n) == steps n + eighth_note.
Proof. unfold steps. rewrite steps_succ. ring. Qed.

Lemma write_note_anchored full st :
  anchored_state full st -> Forall (anchored full) (notes_of (write_note st)).
Proof.
  intros (j & c & Hnth & Hstart & Hp & Hw).
  unfold write_note. rewrite Hp. cbn [notes_of].
  constructor; [| constructor].
  unfold anchored; cbn [track channel startTime pitch velocity].
  conj_split; try reflexivity.
  exists j, c. auto.
Qed.

(** Every note written from an anchored state on is anchored. *)
Lemma run_notes_anchored (full : list ColorSample) (cs : list ColorSample) :
  forall pre i st,
    full = pre ++ cs ->
    current_time st == steps (List.length pre) ->
    anchored_state full st ->
    Forall (anchored full) (run_notes total i cs st).
Proof.
  induction cs as [| c cs IH]; intros pre i st Hfull Hclock Hanch.
  - rewrite run_notes_nil. apply write_note_anchored, Hanch.
  - rewrite run_notes_cons. apply Forall_app.
    assert (Hfull' : full = (pre ++ [c]) ++ cs)
      by (rewrite <- app_assoc; exact Hfull).
    assert (Hlen : steps (List.length (pre ++ [c]))
                   == current_time st + eighth_note).
    { rewrite length_app, Nat.add_comm. cbn [List.length Nat.add].
      rewrite steps_S, Hclock. reflexivity. }
    destruct c as [[[[x y] h] s] v].
    destruct (loop_body_cases i x y h s v st) as [[_ ->] | [_ ->]];
      cbn [fst snd].
    + split; [rewrite notes_of_progress; constructor|].
      apply (IH (pre ++ [(x, y, h, s, v)])); [exact Hfull' | |].
      * st_simpl. symmetry. exact Hlen.
      * destruct Hanch as (j & c & Hnth & Hstart & Hp & Hw).
        exists j, c. st_simpl. auto.
    + split.
      * rewrite notes_of_app, notes_of_progress, app_nil_r.
        apply write_note_anchored, Hanch.
      * apply (IH (pre ++ [(x, y, h, s, v)])); [exact Hfull' | |].
        -- st_simpl. symmetry. exact Hlen.
        -- exists (List.length pre), (x, y, h, s, v). st_simpl.
           conj_split; try reflexivity; [| exact Hclock].
           rewrite Hfull, nth_error_app2, Nat.sub_diag by lia.
           reflexivity.
Qed.

(** The loop performs nothing but note writes and progress lines. *)
Lemma loop_actions (cs : list ColorSample) :
  forall i st, forallb loop_action (fst (loop total i cs st)) = true.
Proof.
  induction cs as [| c cs IH]; intros i st; [reflexivity|].
  cbn [loop].
  destruct (loop_body total i c st) as [out1 st1] eqn:Hbody.
  specialize (IH (S i) st1).
  destruct (loop total (S i) cs st1) as [out2 st2]. cbn [fst] in *.
  rewrite forallb_app, IH, andb_true_r.
  destruct c as [[[[x y] h] s] v].
  assert (Hprog : forallb loop_action (progress total i) = true)
    by (unfold progress; destruct (Nat.eqb _ 0); reflexivity).
  assert (Hwrite : forallb loop_action (write_note st) = true)
    by (unfold write_note; destruct (current_pitch st); reflexivity).
  destruct (loop_body_cases i x y h s v st) as [[_ Heq] | [_ Heq]];
    rewrite Heq in Hbody; injection Hbody as <- _.
  - exact Hprog.
  - rewrite forallb_app, Hwrite, Hprog. reflexivity.
Qed.

(** The clock advances by one step per sample. *)
Lemma loop_clock (cs : list ColorSample) :
  forall i st,
    current_time (snd (loop total i cs st))
    == current_time st + steps (List.length cs).
Proof.
  induction cs as [| c cs IH]; intros i st.
  - cbn. unfold steps. cbn. ring.
  - cbn [loop].
    destruct (loop_body total i c st) as [out1 st1] eqn:Hbody.
    specialize (IH (S i) st1).
    destruct (loop total (S i) cs st1) as [out2 st2]. cbn [snd] in *.
    rewrite IH. cbn [List.length]. rewrite steps_S.
    assert (Hst1 : current_time st1 = current_time st + eighth_note).
    { destruct c as [[[[x y] h] s] v].
      destruct (loop_body_cases i x y h s v st) as [[_ Heq] | [_ Heq]];
        rewrite Heq in Hbody; injection Hbody as _ <-; reflexivity. }
    rewrite Hst1. ring.
Qed.

Lemma progress_lines_app (t1 t2 : list Action) :
  progress_lines (t1 ++ t2) = progress_lines t1 ++ progress_lines t2.
Proof.
  induction t1 as [| a t1 IHt]; [reflexivity|].
  destruct a as [[] | | | | | |]; cbn; rewrite ?IHt; reflexivity.
Qed.

Lemma progress_lines_write_note (st : SeqState) :
  progress_lines (write_note st) = [].
Proof. unfold write_note; destruct (current_pitch st); reflexivity. Qed.

(** The progress lines of the loop from index [i]: one for each multiple
    of 100 among the sample numbers [i+1 .. i+length cs]. *)
Lemma loop_progress (cs : list ColorSample) :
  forall i st,
    progress_lines (fst (loop total i cs st))
    = List.map (fun k => (k, total))
        (filter (fun k => Nat.eqb (Nat.modulo k 100) 0)
                (seq (S i) (List.length cs))).
Proof.
  induction cs as [| c cs IH]; intros i st; [reflexivity|].
  cbn [loop].
  destruct (loop_body total i c st) as [out1 st1] eqn:Hbody.
  specialize (IH (S i) st1).
  destruct (loop total (S i) cs st1) as [out2 st2]. cbn [fst] in *.
  pose proof progress_lines_app as Happ.
  pose proof (progress_lines_write_note st) as Hwrite.
  assert (Hout1 : progress_lines out1 = progress_lines (progress total i)).
  { destruct c as [[[[x y] h] s] v].
    destruct (loop_body_cases i x y h s v st) as [[_ Heq] | [_ Heq]];
      rewrite Heq in Hbody; injection Hbody as <- _.
    - reflexivity.
    - rewrite Happ, Hwrite. reflexivity. }
  rewrite Happ, Hout1, IH. cbn [List.length seq filter].
  unfold progress. replace (i + 1)%nat with (S i) by lia.
  destruct (Nat.eqb (Nat.modulo (S i) 100) 0); reflexivity.
Qed.

End SequencerRuns.

Section SequencerOutput.

Variables (output_path : string) (bpm : Z) (open_ok : bool).

(** The state after the first iteration. *)
Lemma first_iteration total c :
  exists st1,
    loop_body total 0 c init_state = (progress total 0, st1)
    /\ pending st1
    /\ prev_hsv st1 = Some (sample_hsv c)
    /\ current_time st1 == steps 1
    /\ note_start_time st1 == steps 0
    /\ current_pitch st1 = Some (fst (sample_params c))
    /\ current_velocity st1 = Some (snd (sample_params c)).
Proof.
  destruct (loop_body_init total 0 c) as (_ & Hpend & _).
  pose proof (loop_body_prev total 0 c init_state) as Hprev.
  destruct c as [[[[x y] h] s] v].
  destruct (loop_body_cases total 0 x y h s v init_state)
    as [[Hext _] | [_ Heq]]; [discriminate Hext|].
  rewrite Heq in Hpend, Hprev |- *. cbn [snd write_note init_state
    current_pitch app] in *.
  eexists. split; [reflexivity|].
  conj_split; auto; st_simpl; reflexivity.
Qed.

Lemma emitted_first (c : ColorSample) (cs : list ColorSample) :
  exists st1,
    emitted (c :: cs) output_path bpm open_ok
    = run_notes (List.length (c :: cs)) 1 cs st1
    /\ pending st1
    /\ prev_hsv st1 = Some (sample_hsv c)
    /\ current_time st1 == steps 1
    /\ note_start_time st1 == steps 0
    /\ current_pitch st1 = Some (fst (sample_params c))
    /\ current_velocity st1 = Some (snd (sample_params c)).
Proof.
  destruct (first_iteration (List.length (c :: cs)) c) as (st1 & Heq & H).
  exists st1. split; [| exact H].
  rewrite emitted_run, run_notes_cons, Heq. cbn [fst snd].
  rewrite notes_of_progress. reflexivity.
Qed.

Lemma emitted_anchored (cs : list ColorSample) :
  Forall (anchored cs) (emitted cs output_path bpm open_ok).
Proof.
  destruct cs as [| c cs]; [constructor|].
  destruct (emitted_first c cs)
    as (st1 & -> & _ & _ & Hclock & Hstart & Hp & Hw).
  apply (run_notes_anchored _ (c :: cs) cs [c]).
  - reflexivity.
  - exact Hclock.
  - exists 0%nat, c. auto.
Qed.

Lemma always_close_breaks prev cs : always_close prev cs -> breaks prev cs = 0%nat.
Proof.
  revert prev. induction cs as [| c cs IH]; intros prev H; [reflexivity|].
  destruct H as [Hc Hrest]. cbn [breaks]. rewrite Hc, (IH _ Hrest).
  reflexivity.
Qed.

Lemma steps_zero (j : nat) : steps j == 0 -> j = 0%nat.
Proof. unfold steps, eighth_note, Qeq. cbn. lia. Qed.

(** In a contiguous list the last note ends at the start of the first
    plus the total duration. *)
Lemma contiguous_end (pre : list NoteEvent) :
  forall first l n,
    first :: l = pre ++ [n] ->
    Spec.contiguous (first :: l) ->
    startTime n + duration n
    == startTime first + Spec.total_duration (first :: l).
Proof.
  induction pre as [| a pre IH]; intros first l n Heq Hcont.
  - injection Heq as -> ->. cbn. ring.
  - cbn [app] in Heq. injection Heq as -> Hl.
    destruct l as [| b l]; [destruct pre; discriminate|].
    destruct Hcont as [Hhead Htail].
    rewrite (IH b l n Hl Htail).
    cbn [Spec.total_duration]. rewrite <- Hhead. ring.
Qed.

Lemma in_loop_out (a : Action) total i cs st :
  In a (fst (loop total i cs st)) -> loop_action a = true.
Proof.
  intros Hin. pose proof (loop_actions total cs i st) as Hall.
  rewrite forallb_forall in Hall. apply Hall, Hin.
Qed.

Lemma in_write_note (a : Action) st :
  In a (write_note st) -> loop_action a = true.
Proof.
  unfold write_note. destruct (current_pitch st); [| intros []].
  intros [<- | []]. reflexivity.
Qed.

(** The trace of a call on a non-empty input, in its four parts. *)
Lemma create_parts (c : ColorSample) (cs : list ColorSample) :
  create_midi_from_colors (c :: cs) output_path bpm open_ok
  = [NewMIDIFile 1; AddTrackName 0 0 "Image Colors"; AddTempo 0 0 bpm;
     Print Converting; Print (TotalPixels (List.length (c :: cs)))]
    ++ fst (loop (List.length (c :: cs)) 0 (c :: cs) init_state)
    ++ write_note (snd (loop (List.length (c :: cs)) 0 (c :: cs) init_state))
    ++ (if open_ok
        then [WriteFile output_path; Print (Saved output_path);
              Print (Duration
                       (current_time
                          (snd (loop (List.length (c :: cs)) 0 (c :: cs)
                                     init_state))))]
        else [Print ErrorSaving; Exit 1]).
Proof.
  unfold create_midi_from_colors.
  destruct (loop (List.length (c :: cs)) 0 (c :: cs) init_state).
  reflexivity.
Qed.

End SequencerOutput.

(** X7.  The Sequencer emits one NoteEvent more than there are samples
    that are not close to the sample before them. *)
Theorem sequencer_note_count (c : ColorSample) (cs : list ColorSample)
    (output_path : string) (bpm : Z) (open_ok : bool) :
  List.length (emitted (c :: cs) output_path bpm open_ok)
  = S (breaks (sample_hsv c) cs).
Proof.
  destruct (emitted_first output_path bpm open_ok c cs)
    as (st1 & -> & Hpend & Hprev & _).
  apply run_notes_count; assumption.
Qed.

(** X8.  Every emitted NoteEvent is on track 0 and channel 0, starts at
    the time slot [j * 0.5] of some sample [j] of the input, and has the
    pitch and velocity the Mapper gives for that sample. *)
Theorem sequencer_notes_from_samples (cs : list ColorSample)
    (output_path : string) (bpm : Z) (open_ok : bool) :
  Forall
    (fun n =>
       track n = 0%Z /\ channel n = 0%Z
       /\ exists j c,
           nth_error cs j = Some c
           /\ startTime n == inject_Z (Z.of_nat j) * eighth_note
           /\ pitch n = fst (sample_params c)
           /\ velocity n = Some (snd (sample_params c)))
    (emitted cs output_path bpm open_ok).
Proof. exact (emitted_anchored output_path bpm open_ok cs). Qed.

(** X9.  Every emitted NoteEvent has a pitch in [21,108] and a velocity
    that is set and in [20,127]. *)
Theorem sequencer_notes_in_range (cs : list ColorSample)
    (output_path : string) (bpm : Z) (open_ok : bool) :
  Forall
    (fun n =>
       (21 <= pitch n <= 108)%Z
       /\ exists w, velocity n = Some w /\ (20 <= w <= 127)%Z)
    (emitted cs output_path bpm open_ok).
Proof.
  eapply Forall_impl; [| exact (emitted_anchored output_path bpm open_ok cs)].
  intros n (_ & _ & j & c & _ & _ & Hp & Hw).
  destruct c as [[[[x y] h] s] v].
  rewrite Hp, Hw. unfold sample_params, hsv_to_midi_params; cbn [fst snd].
  split; [lia|]. eexists. split; [reflexivity | lia].
Qed.

(** X10.  When every sample is close to the sample before it, the whole
    sequence becomes one NoteEvent: it starts at 0, lasts one step per
    sample, and has the pitch and velocity of the first sample, however
    far the later samples drift from the first. *)
Theorem sequencer_single_run (c : ColorSample) (cs : list ColorSample)
    (output_path : string) (bpm : Z) (open_ok : bool) :
  always_close (sample_hsv c) cs ->
  exists n,
    emitted (c :: cs) output_path bpm open_ok = [n]
    /\ startTime n == 0
    /\ duration n == inject_Z (Z.of_nat (List.length (c :: cs))) * eighth_note
    /\ pitch n = fst (sample_params c)
    /\ velocity n = Some (snd (sample_params c)).
Proof.
  intros Hclose.
  pose proof (emitted_anchored output_path bpm open_ok (c :: cs)) as Hanch.
  destruct (emitted_first output_path bpm open_ok c cs)
    as (st1 & Heq & Hpend & Hprev & _).
  pose proof (run_notes_count (List.length (c :: cs)) cs 1 st1 _ Hpend Hprev)
    as Hlen.
  rewrite <- Heq, (always_close_breaks _ _ Hclose) in Hlen.
  destruct (emitted_shape output_path bpm open_ok c cs)
    as (n & ns & Hem & Hstart & _ & Htot & _).
  rewrite Hem in Hlen, Hanch.
  destruct ns as [| n2 ns]; [| discriminate Hlen].
  exists n. rewrite Hem. split; [reflexivity|].
  inversion Hanch as [| ? ? (_ & _ & j & c' & Hnth & Hj & Hp & Hw) _]; subst.
  assert (j = 0%nat) by (apply steps_zero; rewrite <- Hj; exact Hstart).
  subst j. cbn in Hnth. injection Hnth as <-.
  conj_split; auto.
  rewrite <- Htot. cbn. ring.
Qed.

(** Hues 0, 12, 24, 36: each within 15 of the one before, the last 36 away
    from the first. *)
Lemma sequencer_single_run_witness :
  exists n,
    emitted [(0%Z, 0%Z, 0, 50, 50); (0%Z, 1%Z, 12, 50, 50);
             (0%Z, 2%Z, 24, 50, 50); (0%Z, 3%Z, 36, 50, 50)]
            "out.mid" 120 true = [n]
    /\ startTime n == 0
    /\ duration n == inject_Z (Z.of_nat 4) * eighth_note
    /\ pitch n = fst (sample_params (0%Z, 0%Z, 0, 50, 50))
    /\ velocity n = Some (snd (sample_params (0%Z, 0%Z, 0, 50, 50))).
Proof.
  apply (sequencer_single_run (0%Z, 0%Z, 0, 50, 50)
           [(0%Z, 1%Z, 12, 50, 50); (0%Z, 2%Z, 24, 50, 50);
            (0%Z, 3%Z, 36, 50, 50)] "out.mid" 120 true).
  cbn [always_close]. conj_split; reflexivity || exact I.
Defined.

(** Where the file write and the exit can occur in a trace. *)
Lemma create_outcome (cs : list ColorSample)
    (output_path : string) (bpm : Z) (open_ok : bool) :
  (forall p,
      In (WriteFile p) (create_midi_from_colors cs output_path bpm open_ok)
      <-> cs <> [] /\ open_ok = true /\ p = output_path)
  /\ (forall code,
        In (Exit code) (create_midi_from_colors cs output_path bpm open_ok)
        <-> cs <> [] /\ open_ok = false /\ code = 1%Z).
Proof.
  destruct cs as [| c cs].
  - split; intros q; split.
    + intros [Hq | []]; discriminate Hq.
    + intros [Hne _]; congruence.
    + intros [Hq | []]; discriminate Hq.
    + intros [Hne _]; congruence.
  - rewrite create_parts. split; intros q; split.
    + rewrite !in_app_iff.
      intros [Hin | [Hin | [Hin | Hin]]].
      * cbn in Hin. decompose [or] Hin; try discriminate; contradiction.
      * apply in_loop_out in Hin. discriminate Hin.
      * apply in_write_note in Hin. discriminate Hin.
      * destruct open_ok; cbn in Hin; decompose [or] Hin;
          try discriminate; try contradiction.
        match goal with H : WriteFile _ = WriteFile _ |- _ =>
          injection H as <- end.
        conj_split; [discriminate | reflexivity | reflexivity].
    + intros (_ & -> & ->). rewrite !in_app_iff.
      right; right; right. left. reflexivity.
    + rewrite !in_app_iff.
      intros [Hin | [Hin | [Hin | Hin]]].
      * cbn in Hin. decompose [or] Hin; try discriminate; contradiction.
      * apply in_loop_out in Hin. discriminate Hin.
      * apply in_write_note in Hin. discriminate Hin.
      * destruct open_ok; cbn in Hin; decompose [or] Hin;
          try discriminate; try contradiction.
        match goal with H : Exit _ = Exit _ |- _ =>
          injection H as <- end.
        conj_split; [discriminate | reflexivity | reflexivity].
    + intros (_ & -> & ->). rewrite !in_app_iff.
      right; right; right. right; left. reflexivity.
Qed.

(** X11.  The call writes a file exactly when the input is not empty and
    the write succeeds, and then to the given path; it exits exactly when
    the input is not empty and the write fails, and then with code 1. *)
Theorem create_midi_outcome (cs : list ColorSample)
    (output_path : string) (bpm : Z) (open_ok : bool) :
  (forall p,
      In (WriteFile p) (create_midi_from_colors cs output_path bpm open_ok)
      <-> cs <> [] /\ open_ok = true /\ p = output_path)
  /\ (forall code,
        In (Exit code) (create_midi_from_colors cs output_path bpm open_ok)
        <-> cs <> [] /\ open_ok = false /\ code = 1%Z).
Proof. exact (create_outcome cs output_path bpm open_ok). Qed.

(** X12.  When the input is not empty and the write succeeds, the trace
    ends with the file write, the "saved" line and the duration line; all
    NoteEvents are added before the write, and the reported duration is
    one time-unit-step per sample. *)
Theorem create_midi_writes_last (cs : list ColorSample)
    (output_path : string) (bpm : Z) :
  cs <> [] ->
  exists pre beats,
    create_midi_from_colors cs output_path bpm true
    = pre ++ [WriteFile output_path; Print (Saved output_path);
              Print (Duration beats)]
    /\ notes_of pre = emitted cs output_path bpm true
    /\ beats == inject_Z (Z.of_nat (List.length cs)) * eighth_note.
Proof.
  intros Hne. destruct cs as [| c cs]; [congruence|].
  unfold emitted. rewrite create_parts.
  pose proof (loop_clock (List.length (c :: cs)) (c :: cs) 0 init_state)
    as Hclock.
  destruct (loop (List.length (c :: cs)) 0 (c :: cs) init_state)
    as [out st]. cbn [fst snd] in *.
  exists ([NewMIDIFile 1; AddTrackName 0 0 "Image Colors"; AddTempo 0 0 bpm;
           Print Converting; Print (TotalPixels (List.length (c :: cs)))]
          ++ out ++ write_note st), (current_time st).
  conj_split.
  - rewrite <- (app_assoc _ (out ++ write_note st)),
            <- (app_assoc out (write_note st)).
    reflexivity.
  - rewrite !notes_of_app. cbn [notes_of]. rewrite !app_nil_r.
    reflexivity.
  - rewrite Hclock. cbn [current_time init_state]. unfold steps. ring.
Qed.

Lemma create_midi_writes_last_witness :
  merging_samples <> []
  /\ exists pre beats,
      create_midi_from_colors merging_samples "out.mid" 120 true
      = pre ++ [WriteFile "out.mid"; Print (Saved "out.mid");
                Print (Duration beats)]
      /\ notes_of pre = emitted merging_samples "out.mid" 120 true
      /\ beats == inject_Z (Z.of_nat (List.length merging_samples))
                  * eighth_note.
Proof.
  assert (Hne : merging_samples <> []) by discriminate.
  split; [exact Hne|].
  exact (create_midi_writes_last merging_samples "out.mid" 120 Hne).
Defined.

(** X13.  The progress lines are, in order, one for each multiple of 100
    among the sample numbers 1..N, each naming the total N. *)
Theorem create_midi_progress (cs : list ColorSample)
    (output_path : string) (bpm : Z) (open_ok : bool) :
  progress_lines (create_midi_from_colors cs output_path bpm open_ok)
  = List.map (fun k => (k, List.length cs))
      (filter (fun k => Nat.eqb (Nat.modulo k 100) 0)
              (seq 1 (List.length cs))).
Proof.
  destruct cs as [| c cs]; [reflexivity|].
  rewrite create_parts, !progress_lines_app.
  rewrite loop_progress, progress_lines_write_note.
  destruct open_ok; cbn [progress_lines app]; rewrite app_nil_r; reflexivity.
Qed.

(** X14.  The last emitted NoteEvent ends one time-unit-step per sample
    after time 0. *)
Theorem sequencer_last_note_end (cs : list ColorSample)
    (output_path : string) (bpm : Z) (open_ok : bool)
    (pre : list NoteEvent) (n : NoteEvent) :
  emitted cs output_path bpm open_ok = pre ++ [n] ->
  startTime n + duration n
  == inject_Z (Z.of_nat (List.length cs)) * eighth_note.
Proof.
  intros Hlast. destruct cs as [| c cs].
  - destruct pre; discriminate Hlast.
  - destruct (emitted_shape output_path bpm open_ok c cs)
      as (n0 & ns & Hem & Hstart & Hcont & Htot & _).
    rewrite Hem in Hlast.
    rewrite (contiguous_end pre n0 ns n Hlast Hcont), Hstart, Htot. ring.
Qed.

Lemma sequencer_last_note_end_witness :
  startTime (mkNote 0 0 69 ((1 # 2) + (1 # 2)) (1 # 2) (Some 73%Z))
  + duration (mkNote 0 0 69 ((1 # 2) + (1 # 2)) (1 # 2) (Some 73%Z))
  == inject_Z (Z.of_nat (List.length merging_samples)) * eighth_note.
Proof.
  apply (sequencer_last_note_end merging_samples "out.mid" 120 true
           [mkNote 0 0 63 0 ((1 # 2) + (1 # 2)) (Some 73%Z)]).
  reflexivity.
Defined.

(** * Sampler *)

Section Sampler.

Variable rgb_to_hsv : Q -> Q -> Q -> Q * Q * Q.
Variable img : Image.

Lemma sample_pixel_xy (x y : nat) :
  List.map sample_xy (sample_pixel rgb_to_hsv img x y)
  = if is_opaque img (x, y) then [position_Z (x, y)] else [].
Proof.
  unfold sample_pixel, is_opaque; cbn [fst snd].
  destruct (img_pixels img x y) as [[[r g] b] a].
  destruct (a <? 128)%Z; cbn [negb]; [reflexivity|].
  destruct (rgb_to_hsv _ _ _) as [[h s] v]. reflexivity.
Qed.

Lemma column_xy (x : nat) (ys : list nat) :
  List.map sample_xy (flat_map (sample_pixel rgb_to_hsv img x) ys)
  = List.map position_Z (filter (is_opaque img) (List.map (pair x) ys)).
Proof.
  induction ys as [| y ys IH]; [reflexivity|].
  cbn [flat_map List.map filter].
  rewrite map_app, sample_pixel_xy, IH.
  destruct (is_opaque img (x, y)); reflexivity.
Qed.

Lemma columns_xy (xs ys : list nat) :
  List.map sample_xy
    (flat_map (fun x => flat_map (sample_pixel rgb_to_hsv img x) ys) xs)
  = List.map position_Z
      (filter (is_opaque img) (flat_map (fun x => List.map (pair x) ys) xs)).
Proof.
  induction xs as [| x xs IH]; [reflexivity|].
  cbn [flat_map]. rewrite map_app, filter_app, map_app, column_xy, IH.
  reflexivity.
Qed.

(** The positions of the samples: the opaque positions, column by column. *)
Lemma extract_pixels_xy :
  List.map sample_xy (extract_pixels rgb_to_hsv img)
  = List.map position_Z (filter (is_opaque img) (positions img)).
Proof. apply columns_xy. Qed.

Lemma in_positions (p : nat * nat) :
  In p (positions img)
  <-> (fst p < img_width img)%nat /\ (snd p < img_height img)%nat.
Proof.
  unfold positions. rewrite in_flat_map. split.
  - intros (x & Hx & Hp). apply in_map_iff in Hp.
    destruct Hp as (y & <- & Hy). apply in_seq in Hx, Hy. cbn. lia.
  - intros [Hx Hy]. exists (fst p). split; [apply in_seq; lia|].
    apply in_map_iff. exists (snd p). split; [destruct p; reflexivity|].
    apply in_seq. lia.
Qed.

Lemma length_positions :
  List.length (positions img) = (img_width img * img_height img)%nat.
Proof.
  unfold positions.
  assert (H : forall xs : list nat,
             List.length
               (flat_map (fun x => List.map (pair x) (seq 0 (img_height img))) xs)
             = (List.length xs * img_height img)%nat).
  { induction xs as [| x xs IH]; [reflexivity|].
    cbn [flat_map]. rewrite length_app, length_map, length_seq, IH.
    cbn. lia. }
  rewrite H, length_seq. reflexivity.
Qed.

Lemma filter_length_full {A : Type} (f : A -> bool) (l : list A) :
  List.length (filter f l) = List.length l
  <-> forall a, In a l -> f a = true.
Proof.
  induction l as [| a l IH]; cbn [filter List.length].
  - split; [intros _ a [] | reflexivity].
  - pose proof (filter_length_le f l) as Hle.
    destruct (f a) eqn:Hfa; cbn [List.length].
    + split.
      * intros Hlen b [<- | Hb]; [exact Hfa|]. apply IH; [lia | exact Hb].
      * intros Hall. f_equal. apply IH. intros b Hb. apply Hall. now right.
    + split; [lia|].
      intros Hall. specialize (Hall a (or_introl eq_refl)). congruence.
Qed.

Lemma filter_nil_iff {A : Type} (f : A -> bool) (l : list A) :
  filter f l = [] <-> forall a, In a l -> f a = false.
Proof.
  induction l as [| a l IH]; cbn [filter].
  - split; [intros _ a [] | reflexivity].
  - destruct (f a) eqn:Hfa.
    + split; [discriminate|].
      intros Hall. specialize (Hall a (or_introl eq_refl)). congruence.
    + rewrite IH. split.
      * intros Hall b [<- | Hb]; auto.
      * intros Hall b Hb. apply Hall. now right.
Qed.

Lemma length_extract_pixels :
  List.length (extract_pixels rgb_to_hsv img)
  = List.length (filter (is_opaque img) (positions img)).
Proof.
  rewrite <- (length_map sample_xy), extract_pixels_xy, length_map.
  reflexivity.
Qed.

End Sampler.

Section ColumnMajor.

Lemma StronglySorted_append {A : Type} (R : A -> A -> Prop) (l1 l2 : list A) :
  StronglySorted R l1 -> StronglySorted R l2 ->
  (forall a b, In a l1 -> In b l2 -> R a b) ->
  StronglySorted R (l1 ++ l2).
Proof.
  intros H1 H2 Hcross. induction H1 as [| a l1 Hs IH Hall]; [exact H2|].
  cbn [app]. constructor.
  - apply IH. intros x y Hx. apply Hcross. now right.
  - apply Forall_app. split; [exact Hall|].
    apply Forall_forall. intros b Hb. apply Hcross; [now left | exact Hb].
Qed.

Lemma StronglySorted_filtered {A : Type} (R : A -> A -> Prop)
    (f : A -> bool) (l : list A) :
  StronglySorted R l -> StronglySorted R (filter f l).
Proof.
  intros H. induction H as [| a l Hs IH Hall]; [constructor|].
  cbn [filter]. destruct (f a); [| exact IH].
  constructor; [exact IH|].
  apply Forall_forall. intros b Hb. apply filter_In in Hb.
  rewrite Forall_forall in Hall. apply Hall, Hb.
Qed.

Lemma StronglySorted_mapped {A B : Type} (R : B -> B -> Prop) (g : A -> B)
    (l : list A) :
  StronglySorted (fun a b => R (g a) (g b)) l ->
  StronglySorted R (List.map g l).
Proof.
  intros H. induction H as [| a l Hs IH Hall]; [constructor|].
  cbn [List.map]. constructor; [exact IH|].
  apply Forall_forall. intros b Hb. apply in_map_iff in Hb.
  destruct Hb as (a' & <- & Ha'). rewrite Forall_forall in Hall.
  apply Hall, Ha'.
Qed.

Lemma seq_sorted (n a : nat) : StronglySorted lt (seq a n).
Proof.
  revert a. induction n as [| n IH]; intros a; [constructor|].
  cbn [seq]. constructor; [apply IH|].
  apply Forall_forall. intros b Hb. apply in_seq in Hb. lia.
Qed.

(** Positions listed column by column are in column-major order. *)
Lemma positions_sorted (img : Image) :
  StronglySorted
    (fun p q => column_major_lt (position_Z p) (position_Z q))
    (positions img).
Proof.
  unfold positions.
  pose proof (seq_sorted (img_height img) 0) as Hys.
  pose proof (seq_sorted (img_width img) 0) as Hxs.
  induction Hxs as [| x xs Hs IH Hall]; [constructor|].
  cbn [flat_map]. apply StronglySorted_append.
  - clear -Hys. induction Hys as [| y ys Hs IH Hall]; [constructor|].
    cbn [List.map]. constructor; [exact IH|].
    apply Forall_forall. intros q Hq. apply in_map_iff in Hq.
    destruct Hq as (y' & <- & Hy'). rewrite Forall_forall in Hall.
    specialize (Hall y' Hy').
    right. cbn. split; [reflexivity | lia].
  - exact IH.
  - intros p q Hp Hq. apply in_map_iff in Hp. destruct Hp as (y & <- & _).
    apply in_flat_map in Hq. destruct Hq as (x' & Hx' & Hq).
    apply in_map_iff in Hq. destruct Hq as (y' & <- & _).
    rewrite Forall_forall in Hall. specialize (Hall x' Hx').
    left. cbn. lia.
Qed.

End ColumnMajor.

(** X15.  The positions of the samples are exactly the positions of the
    image whose alpha is at least 128, listed column by column. *)
Theorem extract_pixels_positions (rgb_to_hsv : Q -> Q -> Q -> Q * Q * Q)
    (img : Image) :
  List.map sample_xy (extract_pixels rgb_to_hsv img)
  = List.map position_Z (filter (is_opaque img) (positions img)).
Proof. apply extract_pixels_xy. Qed.

(** X16.  The samples come in column-major order: each sample's [(x, y)]
    is strictly before that of every later sample, by [x] and then by
    [y]. *)
Theorem extract_pixels_column_major (rgb_to_hsv : Q -> Q -> Q -> Q * Q * Q)
    (img : Image) :
  StronglySorted column_major_lt
    (List.map sample_xy (extract_pixels rgb_to_hsv img)).
Proof.
  rewrite extract_pixels_xy.
  apply StronglySorted_mapped, StronglySorted_filtered, positions_sorted.
Qed.

(** X17.  There are at most width * height samples; exactly that many when
    every pixel of the image is opaque, and none exactly when every pixel
    has an alpha below 128. *)
Theorem extract_pixels_length (rgb_to_hsv : Q -> Q -> Q -> Q * Q * Q)
    (img : Image) :
  (List.length (extract_pixels rgb_to_hsv img)
   <= img_width img * img_height img)%nat
  /\ (List.length (extract_pixels rgb_to_hsv img)
      = (img_width img * img_height img)%nat
      <-> forall x y,
          (x < img_width img)%nat -> (y < img_height img)%nat ->
          is_opaque img (x, y) = true)
  /\ (extract_pixels rgb_to_hsv img = []
      <-> forall x y,
          (x < img_width img)%nat -> (y < img_height img)%nat ->
          is_opaque img (x, y) = false).
Proof.
  rewrite length_extract_pixels, <- length_positions. conj_split.
  - apply filter_length_le.
  - rewrite filter_length_full. split.
    + intros Hall x y Hx Hy. apply Hall, in_positions. cbn. lia.
    + intros Hall [x y] Hin. apply in_positions in Hin. cbn in Hin.
      apply Hall; lia.
  - rewrite <- length_zero_iff_nil, length_extract_pixels,
      length_zero_iff_nil, filter_nil_iff. split.
    + intros Hall x y Hx Hy. apply Hall, in_positions. cbn. lia.
    + intros Hall [x y] Hin. apply in_positions in Hin. cbn in Hin.
      apply Hall; lia.
Qed.

Section SamplerRanges.

Lemma byte_unit (r : Z) : (0 <= r <= 255)%Z -> 0 <= inject_Z r / 255 <= 1.
Proof.
  intros [Hlo Hhi].
  rewrite Zle_Qle in Hlo, Hhi.
  change (inject_Z 0) with 0 in Hlo. change (inject_Z 255) with 255 in Hhi.
  unfold Qdiv. change (/ 255) with (1 # 255). lra.
Qed.

Lemma sample_pixel_in_range rgb_to_hsv img x y :
  unit_range rgb_to_hsv -> byte_channels img ->
  (x < img_width img)%nat -> (y < img_height img)%nat ->
  Forall sample_in_range (sample_pixel rgb_to_hsv img x y).
Proof.
  intros Hunit Hbytes Hx Hy. specialize (Hbytes x y Hx Hy).
  unfold sample_pixel.
  destruct (img_pixels img x y) as [[[r g] b] a].
  destruct Hbytes as (Hr & Hg & Hb).
  destruct (a <? 128)%Z; [constructor|].
  specialize (Hunit _ _ _ (byte_unit r Hr) (byte_unit g Hg) (byte_unit b Hb)).
  destruct (rgb_to_hsv _ _ _) as [[h s] v].
  destruct Hunit as (Hh & Hs & Hv).
  constructor; [| constructor].
  unfold sample_in_range. conj_split; lra.
Qed.

(** The standard conversion stays in the unit ranges. *)
Lemma colorsys_unit_range : unit_range colorsys_rgb_to_hsv.
Proof.
  intros r g b Hr Hg Hb. unfold colorsys_rgb_to_hsv.
  set (maxc := Qmax r (Qmax g b)). set (minc := Qmin r (Qmin g b)).
  assert (Hmax1 : maxc <= 1)
    by (apply Q.max_lub; [| apply Q.max_lub]; tauto).
  assert (Hmin0 : 0 <= minc)
    by (apply Q.min_glb; [| apply Q.min_glb]; tauto).
  assert (Hminr : minc <= r) by apply Q.le_min_l.
  assert (Hrmax : r <= maxc) by apply Q.le_max_l.
  destruct (Qeq_bool minc maxc) eqn:Heq.
  - conj_split; lra.
  - assert (Hne : ~ minc == maxc)
      by (intros H; apply Qeq_bool_iff in H; congruence).
    assert (Hpos : 0 < maxc) by lra.
    match goal with
    | |- context [?x / 6 - inject_Z (Qfloor (?x / 6))] => set (h := x / 6)
    end.
    pose proof (Qfloor_le h) as Hfl. pose proof (Qlt_floor h) as Hfu.
    rewrite inject_Z_plus in Hfu. change (inject_Z 1) with 1 in Hfu.
    conj_split; try lra.
    + apply Qle_shift_div_l; [exact Hpos | lra].
    + apply Qle_shift_div_r; [exact Hpos | lra].
Qed.

Lemma small_image_bytes : byte_channels small_image.
Proof.
  intros x y Hx Hy. cbn in Hx, Hy.
  destruct x as [| [| x]], y as [| [| y]]; cbn; lia.
Qed.

End SamplerRanges.

(** X18.  When the colour channels of the pixels are bytes and
    [rgb_to_hsv] maps unit-range channels to a hue in [0,1) and a
    saturation and value in [0,1], every sample has its hue in [0,360) and
    its saturation and value in [0,100]: the ranges the Mapper documents. *)
Theorem extract_pixels_in_range (rgb_to_hsv : Q -> Q -> Q -> Q * Q * Q)
    (img : Image) :
  unit_range rgb_to_hsv -> byte_channels img ->
  Forall sample_in_range (extract_pixels rgb_to_hsv img).
Proof.
  intros Hunit Hbytes. apply Forall_forall. intros c Hc.
  unfold extract_pixels, extract_column in Hc.
  apply in_flat_map in Hc. destruct Hc as (x & Hx & Hc).
  apply in_flat_map in Hc. destruct Hc as (y & Hy & Hc).
  apply in_seq in Hx, Hy.
  pose proof (sample_pixel_in_range rgb_to_hsv img x y Hunit Hbytes) as Hall.
  rewrite Forall_forall in Hall. apply Hall; [lia | lia | exact Hc].
Qed.

Lemma extract_pixels_in_range_witness :
  Forall sample_in_range (extract_pixels colorsys_rgb_to_hsv small_image).
Proof.
  exact (extract_pixels_in_range colorsys_rgb_to_hsv small_image
           colorsys_unit_range small_image_bytes).
Defined.

(** * The program *)

Section Program.

Variable rgb_to_hsv : Q -> Q -> Q -> Q * Q * Q.

Lemma core_actions_app (e1 e2 : list MainEvent) :
  core_actions (e1 ++ e2) = core_actions e1 ++ core_actions e2.
Proof.
  induction e1 as [| e e1 IH]; [reflexivity|].
  destruct e; cbn [core_actions app]; rewrite ?IH; reflexivity.
Qed.

Lemma core_actions_map (tr : list Action) :
  core_actions (List.map Core tr) = tr.
Proof.
  induction tr as [| a tr IH]; [reflexivity|].
  cbn [List.map core_actions]. rewrite IH. reflexivity.
Qed.

Lemma in_core_actions (a : Action) (evs : list MainEvent) :
  In (Core a) evs <-> In a (core_actions evs).
Proof.
  induction evs as [| e evs IH]; [reflexivity|].
  destruct e; cbn [core_actions In]; rewrite IH;
    try (split; [intros [H | H]; [discriminate H | exact H] | now right]).
  split; (intros [H | H]; [left; congruence | now right]).
Qed.

(** The trace of a run in which both dialogs give a path and the image
    opens. *)
Lemma main_run image_path img output_path open_ok :
  not_path image_path = false -> not_path output_path = false ->
  main rgb_to_hsv image_path (Some img) output_path open_ok
  = [Say Banner; Say Rule; Say Blank; SelectImage;
     Say (Selected image_path); Say Processing;
     Say (ImageSize (img_width img) (img_height img));
     Say (NonTransparent (List.length (extract_pixels rgb_to_hsv img)));
     SaveMidiDialog]
    ++ List.map Core
         (create_midi_from_colors (extract_pixels rgb_to_hsv img)
                                  output_path 120 open_ok)
    ++ (if existsb is_exit
             (create_midi_from_colors (extract_pixels rgb_to_hsv img)
                                      output_path 120 open_ok)
        then [] else [Say Done]).
Proof.
  intros Hi Ho. unfold main, extract_hsv_data. rewrite Hi, Ho. reflexivity.
Qed.

(** The core actions of a run, by the way it goes. *)
Lemma core_actions_main image_path opened output_path open_ok :
  core_actions (main rgb_to_hsv image_path opened output_path open_ok)
  = if not_path image_path then [Exit 0]
    else match opened with
         | None => [Exit 1]
         | Some img =>
             if not_path output_path then [Exit 0]
             else create_midi_from_colors (extract_pixels rgb_to_hsv img)
                                          output_path 120 open_ok
         end.
Proof.
  destruct (not_path image_path) eqn:Hi.
  - unfold main. rewrite Hi. reflexivity.
  - destruct opened as [img |].
    + destruct (not_path output_path) eqn:Ho.
      * unfold main, extract_hsv_data. rewrite Hi, Ho. reflexivity.
      * rewrite main_run by assumption.
        rewrite !core_actions_app, core_actions_map.
        destruct (existsb is_exit _); cbn [core_actions app];
          rewrite app_nil_r; reflexivity.
    + unfold main, extract_hsv_data. rewrite Hi. reflexivity.
Qed.

Lemma loop_actions_no_exit (l : list Action) :
  forallb loop_action l = true -> existsb is_exit l = false.
Proof.
  induction l as [| a l IH]; [reflexivity|].
  cbn [forallb existsb]. intros H. apply andb_true_iff in H.
  destruct H as [Ha Hl]. rewrite (IH Hl).
  destruct a as [[] | | | | | |]; try discriminate Ha; reflexivity.
Qed.

(** A call ends in an exit exactly when its input is not empty and the
    write fails. *)
Lemma create_exits cs output_path bpm open_ok :
  existsb is_exit (create_midi_from_colors cs output_path bpm open_ok)
  = match cs with [] => false | _ :: _ => negb open_ok end.
Proof.
  destruct cs as [| c cs]; [reflexivity|].
  rewrite create_parts, !existsb_app.
  rewrite (loop_actions_no_exit _ (loop_actions _ (c :: cs) 0 init_state)).
  assert (Hw : forall st, existsb is_exit (write_note st) = false)
    by (intros st; unfold write_note; destruct (current_pitch st);
        reflexivity).
  rewrite Hw. destruct open_ok; reflexivity.
Qed.

Lemma extract_nil_iff (img : Image) :
  extract_pixels rgb_to_hsv img = []
  <-> forall x y,
      (x < img_width img)%nat -> (y < img_height img)%nat ->
      is_opaque img (x, y) = false.
Proof.
  rewrite <- length_zero_iff_nil, length_extract_pixels,
    length_zero_iff_nil, filter_nil_iff. split.
  - intros Hall x y Hx Hy. apply Hall, in_positions. cbn. lia.
  - intros Hall [x y] Hin. apply in_positions in Hin. cbn in Hin.
    apply Hall; lia.
Qed.

Lemma main_writes image_path opened output_path open_ok p :
  In (Core (WriteFile p))
     (main rgb_to_hsv image_path opened output_path open_ok)
  <-> not_path image_path = false
      /\ not_path output_path = false
      /\ open_ok = true
      /\ p = output_path
      /\ exists img,
          opened = Some img /\ extract_pixels rgb_to_hsv img <> [].
Proof.
  rewrite in_core_actions, core_actions_main.
  destruct (not_path image_path).
  - split; [intros [H | []]; discriminate H | intros (H & _); discriminate H].
  - destruct opened as [img |].
    + destruct (not_path output_path).
      * split; [intros [H | []]; discriminate H
               | intros (_ & H & _); discriminate H].
      * rewrite (proj1 (create_outcome _ output_path 120 open_ok)). split.
        -- intros (Hne & Hok & Hp). conj_split; auto. exists img. auto.
        -- intros (_ & _ & Hok & Hp & img' & Himg & Hne).
           injection Himg as <-. auto.
    + split; [intros [H | []]; discriminate H |].
      intros (_ & _ & _ & _ & img & Himg & _). discriminate Himg.
Qed.

Lemma main_exits image_path opened output_path open_ok code :
  In (Core (Exit code))
     (main rgb_to_hsv image_path opened output_path open_ok)
  <-> (code = 0%Z
       /\ (not_path image_path = true
           \/ (not_path image_path = false /\ opened <> None
               /\ not_path output_path = true)))
      \/ (code = 1%Z
          /\ not_path image_path = false
          /\ (opened = None
              \/ (not_path output_path = false /\ open_ok = false
                  /\ exists img,
                      opened = Some img
                      /\ extract_pixels rgb_to_hsv img <> []))).
Proof.
  rewrite in_core_actions, core_actions_main.
  destruct (not_path image_path).
  - split.
    + intros [H | []]. injection H as <-. left. auto.
    + intros [(-> & _) | (_ & H & _)]; [now left | discriminate H].
  - destruct opened as [img |].
    + destruct (not_path output_path).
      * split.
        -- intros [H | []]. injection H as <-. left. split; [reflexivity|].
           right. conj_split; auto. discriminate.
        -- intros [(-> & _) | (_ & _ & [H | (H & _)])];
             [now left | discriminate H | discriminate H].
      * rewrite (proj2 (create_outcome _ output_path 120 open_ok)). split.
        -- intros (Hne & Hok & ->). right. conj_split; auto.
           right. conj_split; auto. exists img. auto.
        -- intros [(_ & [H | (_ & _ & H)]) | (-> & _ & [H | H])];
             try discriminate H.
           destruct H as (_ & Hok & img' & Himg & Hne).
           injection Himg as <-. auto.
    + split.
      * intros [H | []]. injection H as <-. right. auto.
      * intros [(_ & [H | (_ & H & _)]) | (-> & _)];
          [discriminate H | congruence | now left].
Qed.

End Program.

Section ProgramRuns.

Variable rgb_to_hsv : Q -> Q -> Q -> Q * Q * Q.

Lemma say_not_core (m : MainMessage) (tr : list Action) :
  ~ In (Say m) (List.map Core tr).
Proof.
  intros Hin. apply in_map_iff in Hin. destruct Hin as (a & H & _).
  discriminate H.
Qed.

Lemma main_done image_path opened output_path open_ok :
  In (Say Done) (main rgb_to_hsv image_path opened output_path open_ok)
  <-> not_path image_path = false
      /\ not_path output_path = false
      /\ exists img,
          opened = Some img
          /\ (extract_pixels rgb_to_hsv img = [] \/ open_ok = true).
Proof.
  destruct (not_path image_path) eqn:Hi.
  - unfold main. rewrite Hi. cbn. split.
    + intros H. decompose [or] H; try discriminate; contradiction.
    + intros (H & _). discriminate H.
  - destruct opened as [img |].
    + destruct (not_path output_path) eqn:Ho.
      * unfold main, extract_hsv_data. rewrite Hi, Ho. cbn. split.
        -- intros H. decompose [or] H; try discriminate; contradiction.
        -- intros (_ & H & _). discriminate H.
      * rewrite main_run by assumption. rewrite create_exits.
        rewrite !in_app_iff. split.
        -- intros [H | [H | H]].
           ++ cbn in H. decompose [or] H; try discriminate; contradiction.
           ++ apply say_not_core in H. contradiction.
           ++ conj_split; auto. exists img. split; [reflexivity|].
              destruct (extract_pixels rgb_to_hsv img); [now left|].
              destruct open_ok; [now right | destruct H].
        -- intros (_ & _ & img' & Himg & Hcase). injection Himg as <-.
           right; right.
           destruct (extract_pixels rgb_to_hsv img); [now left|].
           destruct Hcase as [H | ->]; [discriminate H | now left].
    + unfold main, extract_hsv_data. rewrite Hi. cbn. split.
      * intros H. decompose [or] H; try discriminate; contradiction.
      * intros (_ & _ & img & H & _). discriminate H.
Qed.

Lemma main_total_duration image_path img output_path open_ok :
  not_path image_path = false -> not_path output_path = false ->
  Spec.total_duration
    (notes_of
       (core_actions
          (main rgb_to_hsv image_path (Some img) output_path open_ok)))
  == inject_Z (Z.of_nat (List.length (filter (is_opaque img) (positions img))))
     * eighth_note.
Proof.
  intros Hi Ho. rewrite core_actions_main, Hi, Ho.
  rewrite <- (length_extract_pixels rgb_to_hsv img).
  fold (emitted (extract_pixels rgb_to_hsv img) output_path 120 open_ok).
  destruct (extract_pixels rgb_to_hsv img) as [| c cs].
  - cbn. ring.
  - destruct (emitted_shape output_path 120 open_ok c cs)
      as (n & ns & -> & _ & _ & Htot & _).
    exact Htot.
Qed.

End ProgramRuns.

(** X19.  The program writes a MIDI file exactly when both dialogs return
    a path, the image opens, at least one pixel is sampled and the write
    succeeds; the file goes to the path of the save dialog. *)
Theorem main_writes_file (rgb_to_hsv : Q -> Q -> Q -> Q * Q * Q)
    (image_path : string) (opened : option Image)
    (output_path : string) (open_ok : bool) (p : string) :
  In (Core (WriteFile p))
     (main rgb_to_hsv image_path opened output_path open_ok)
  <-> not_path image_path = false
      /\ not_path output_path = false
      /\ open_ok = true
      /\ p = output_path
      /\ exists img,
          opened = Some img /\ extract_pixels rgb_to_hsv img <> [].
Proof. apply main_writes. Qed.

(** X20.  The program exits with code 0 exactly when a dialog is cancelled
    (the image dialog, or the save dialog after the image opened), and
    with code 1 exactly when the image does not open or the write of a
    non-empty conversion fails. *)
Theorem main_exit_codes (rgb_to_hsv : Q -> Q -> Q -> Q * Q * Q)
    (image_path : string) (opened : option Image)
    (output_path : string) (open_ok : bool) (code : Z) :
  In (Core (Exit code))
     (main rgb_to_hsv image_path opened output_path open_ok)
  <-> (code = 0%Z
       /\ (not_path image_path = true
           \/ (not_path image_path = false /\ opened <> None
               /\ not_path output_path = true)))
      \/ (code = 1%Z
          /\ not_path image_path = false
          /\ (opened = None
              \/ (not_path output_path = false /\ open_ok = false
                  /\ exists img,
                      opened = Some img
                      /\ extract_pixels rgb_to_hsv img <> []))).
Proof. apply main_exits. Qed.

(** X21.  For an image all of whose pixels have an alpha below 128, a run
    with both paths chosen still shows the save dialog, then reports that
    there is nothing to convert, touches no MIDI file and ends with the
    "Done" line, without an exit code. *)
Theorem main_transparent_image (rgb_to_hsv : Q -> Q -> Q -> Q * Q * Q)
    (image_path : string) (img : Image)
    (output_path : string) (open_ok : bool) :
  not_path image_path = false -> not_path output_path = false ->
  (forall x y,
      (x < img_width img)%nat -> (y < img_height img)%nat ->
      is_opaque img (x, y) = false) ->
  main rgb_to_hsv image_path (Some img) output_path open_ok
  = [Say Banner; Say Rule; Say Blank; SelectImage;
     Say (Selected image_path); Say Processing;
     Say (ImageSize (img_width img) (img_height img));
     Say (NonTransparent 0); SaveMidiDialog;
     Core (Print NoColorData); Say Done].
Proof.
  intros Hi Ho Hclear. rewrite main_run by assumption.
  rewrite (proj2 (extract_nil_iff rgb_to_hsv img) Hclear). reflexivity.
Qed.

Lemma main_transparent_image_witness :
  main colorsys_rgb_to_hsv "a.png"
       (Some (mkImage 1 2 (fun _ _ => (10, 20, 30, 127)%Z))) "o.mid" true
  = [Say Banner; Say Rule; Say Blank; SelectImage;
     Say (Selected "a.png"); Say Processing;
     Say (ImageSize 1 2); Say (NonTransparent 0); SaveMidiDialog;
     Core (Print NoColorData); Say Done].
Proof.
  apply (main_transparent_image colorsys_rgb_to_hsv "a.png"
           (mkImage 1 2 (fun _ _ => (10, 20, 30, 127)%Z)) "o.mid" true);
    reflexivity.
Defined.

(** X22.  In a run with both paths chosen, the NoteEvents handed to the
    MIDI writer last, together, one time-unit-step for each pixel of the
    image whose alpha is at least 128. *)
Theorem main_duration_per_pixel (rgb_to_hsv : Q -> Q -> Q -> Q * Q * Q)
    (image_path : string) (img : Image)
    (output_path : string) (open_ok : bool) :
  not_path image_path = false -> not_path output_path = false ->
  Spec.total_duration
    (notes_of
       (core_actions
          (main rgb_to_hsv image_path (Some img) output_path open_ok)))
  == inject_Z (Z.of_nat (List.length (filter (is_opaque img) (positions img))))
     * eighth_note.
Proof. apply main_total_duration. Qed.

Lemma main_duration_per_pixel_witness :
  Spec.total_duration
    (notes_of
       (core_actions
          (main colorsys_rgb_to_hsv "a.png" (Some small_image) "o.mid" true)))
  == inject_Z (Z.of_nat (List.length (filter (is_opaque small_image)
                                             (positions small_image))))
     * eighth_note.
Proof.
  apply (main_duration_per_pixel colorsys_rgb_to_hsv "a.png" small_image
           "o.mid" true); reflexivity.
Defined.

(** X23.  The program prints its final "Done" line exactly when both
    dialogs return a path, the image opens, and either nothing was sampled
    or the write succeeds: also when no file was written because the image
    had no opaque pixel. *)
Theorem main_prints_done (rgb_to_hsv : Q -> Q -> Q -> Q * Q * Q)
    (image_path : string) (opened : option Image)
    (output_path : string) (open_ok : bool) :
  In (Say Done) (main rgb_to_hsv image_path opened output_path open_ok)
  <-> not_path image_path = false
      /\ not_path output_path = false
      /\ exists img,
          opened = Some img
          /\ (extract_pixels rgb_to_hsv img = [] \/ open_ok = true).
Proof. apply main_done. Qed.
